(** * Selection and variation operators of StdGP (stdgp/GeneticOperators.py)

    A shallow embedding of the genetic operators: tournament selection,
    the double tournament, elitism, the depth filter, crossover and
    mutation.  Python objects live in a store: list objects and
    Individual objects are addressed by references, so that aliasing,
    fresh allocation and in-place updates are visible in the statements.
    The random source is part of the state and is consumed draw by draw. *)

From Stdlib Require Import String.
From Stdlib Require Import List ZArith QArith Lia Bool Sorted Permutation.
Import ListNotations.
Open Scope Z_scope.

(** ** Program trees *)

(** Modelled from the spec: the Node class (stdgp/Node.py) is not in the
    source at hand.  A program tree is a node with a value and its
    branches, none for a terminal. *)
#[warnings="-register-all"]
Inductive Node : Type :=
| mkNode (value : string) (branches : list Node).

(** Modelled from the spec: the size of a tree, missing with Node, is its
    number of nodes. *)
Fixpoint nsize (n : Node) : nat :=
  match n with
  | mkNode _ bs =>
      S ((fix total (l : list Node) : nat :=
            match l with
            | [] => O
            | b :: l' => (nsize b + total l')%nat
            end) bs)
  end.

(** Modelled from the spec: the depth of a tree, missing with Node, is
    its number of levels; a terminal has depth 1. *)
Fixpoint ndepth (n : Node) : nat :=
  match n with
  | mkNode _ bs =>
      S ((fix deepest (l : list Node) : nat :=
            match l with
            | [] => O
            | b :: l' => Nat.max (ndepth b) (deepest l')
            end) bs)
  end.

(** Modelled from the spec: Node.getRandomNode and Node.swap are not in
    the source at hand.  A node of a tree is addressed by its preorder
    rank (0 is the root); [subtree_at] reads the subtree at a rank.  A
    rank past the last node, which getRandomNode never produces, reads
    the node itself. *)
Fixpoint subtree_at (n : Node) (i : nat) {struct n} : Node :=
  match i with
  | O => n
  | S i' =>
      match n with
      | mkNode _ bs =>
          (fix among (l : list Node) (j : nat) : Node :=
             match l with
             | [] => n
             | b :: l' =>
                 if (j <? nsize b)%nat then subtree_at b j
                 else among l' (j - nsize b)%nat
             end) bs i'
      end
  end.

(** Modelled from the spec: the other half of Node.swap, missing with
    Node.  [graft_at] replaces the subtree at a preorder rank; a rank past
    the last node replaces nothing. *)
Fixpoint graft_at (n : Node) (i : nat) (new : Node) {struct n} : Node :=
  match i with
  | O => new
  | S i' =>
      match n with
      | mkNode v bs =>
          mkNode v
            ((fix among (l : list Node) (j : nat) : list Node :=
                match l with
                | [] => []
                | b :: l' =>
                    if (j <? nsize b)%nat then graft_at b j new :: l'
                    else b :: among l' (j - nsize b)%nat
                end) bs i')
      end
  end.

(** ** Individuals *)

(** Modelled from the spec: the Individual class (stdgp/Individual.py) is
    not in the source at hand.  An Individual holds the five configuration values it was
    constructed with, the tree it adopted with [copy] (none before that)
    and the fitness an external evaluator attached (none before that);
    size and depth are derived from the tree. *)
Record Individual : Type := mkIndividual {
  operators : list (string * Z);
  terminals : list string;
  max_depth : Z;
  model_name : string;
  fitnessType : string;
  head : option Node;
  fitness : option Q
}.

(** The configuration tuple of an Individual. *)
Definition configuration (i : Individual) :=
  (operators i, terminals i, max_depth i, model_name i, fitnessType i).

(** Modelled from the spec: the [size] attribute, missing with
    Individual, is the node count of the tree. *)
Definition ind_size (i : Individual) : option Z :=
  option_map (fun t => Z.of_nat (nsize t)) (head i).

(** Modelled from the spec: the depth that [getDepth] answers, missing
    with Individual, is the depth of the tree. *)
Definition ind_depth (i : Individual) : option Z :=
  option_map (fun t => Z.of_nat (ndepth t)) (head i).

(** ** The store and the random source *)

Definition ref := nat.   (* identity of an Individual object *)
Definition loc := nat.   (* identity of a list object *)

(** The random source: an unbounded supply of raw integers and the number
    of them consumed so far. *)
Record Rng : Type := mkRng { entropy : nat -> Z; cursor : nat }.

Record State : Type := mkState {
  rng : Rng;
  lists : list (list ref);
  inds : list Individual
}.

Definition advance (k : nat) (g : Rng) : Rng :=
  mkRng (entropy g) (cursor g + k).

Definition with_rng (s : State) (g : Rng) : State :=
  mkState g (lists s) (inds s).

(** Exceptions.  [DanglingReference] cannot arise in Python, where every
    reference is live; it is what the model answers when an address lies
    outside the store. *)
Inductive Exn : Type :=
| AssertionError | ValueError | IndexError | TypeError | AttributeError
| DanglingReference.

Inductive Res (A : Type) : Type :=
| Val (a : A)
| Err (e : Exn).
Arguments Val {A} a.
Arguments Err {A} e.

(** State and exceptions: an exception keeps the effects done before it. *)
Definition M (A : Type) : Type := State -> Res A * State.

Definition ret {A} (a : A) : M A := fun s => (Val a, s).
Definition raise {A} (e : Exn) : M A := fun s => (Err e, s).
Definition bind {A B} (m : M A) (f : A -> M B) : M B :=
  fun s => match m s with
           | (Val a, s') => f a s'
           | (Err e, s') => (Err e, s')
           end.

Notation "x <- m ;; k" := (bind m (fun x => k))
  (at level 61, m at next level, right associativity).
Notation "m ;;; k" := (bind m (fun _ => k))
  (at level 61, right associativity).

(** [for _ in range(n)] collecting the values of the body. *)
Fixpoint replicateM {A} (n : nat) (body : M A) : M (list A) :=
  match n with
  | O => ret []
  | S n' => x <- body ;; xs <- replicateM n' body ;; ret (x :: xs)
  end.

Definition comprehension {A} (n : Z) (body : M A) : M (list A) :=
  replicateM (Z.to_nat n) body.

Fixpoint mapM {A B} (f : A -> M B) (l : list A) : M (list B) :=
  match l with
  | [] => ret []
  | x :: l' => y <- f x ;; ys <- mapM f l' ;; ret (y :: ys)
  end.

Fixpoint forM_ {A} (l : list A) (f : A -> M unit) : M unit :=
  match l with
  | [] => ret tt
  | x :: l' => f x ;;; forM_ l' f
  end.

(** *** random.Random *)

(** [rng.randint(lo, hi)]: an integer of [lo..hi]; empty ranges raise. *)
Definition randint (lo hi : Z) : M Z := fun s =>
  if lo <=? hi then
    (Val (lo + entropy (rng s) (cursor (rng s)) mod (hi - lo + 1)),
     with_rng s (advance 1 (rng s)))
  else (Err ValueError, s).

(** [rng.random()]: a multiple of 2^-53 in [0, 1). *)
Definition random : M Q := fun s =>
  (Val (Qmake (entropy (rng s) (cursor (rng s)) mod 2 ^ 53) (2 ^ 53)),
   with_rng s (advance 1 (rng s))).

Definition remove_nth {A} (j : nat) (l : list A) : list A :=
  firstn j l ++ skipn (S j) l.

(** Selection without replacement: pick a position of the pool, take the
    value there out of the pool, repeat. *)
Fixpoint sample_loop (k : nat) (pool : list Z) : M (list Z) :=
  match k with
  | O => ret []
  | S k' =>
      match pool with
      | [] => raise ValueError
      | x0 :: _ =>
          j <- randint 0 (Z.of_nat (length pool) - 1) ;;
          rest <- sample_loop k' (remove_nth (Z.to_nat j) pool) ;;
          ret (nth (Z.to_nat j) pool x0 :: rest)
      end
  end.

(** [rng.sample(pool, k)]: raises when [k] is negative or larger than the
    pool. *)
Definition sample (pool : list Z) (k : Z) : M (list Z) :=
  if (k <? 0) || (Z.of_nat (length pool) <? k) then raise ValueError
  else sample_loop (Z.to_nat k) pool.

(** *** Built-ins on integers *)

(** [min(l)] raises on the empty list. *)
Definition py_min (l : list Z) : M Z :=
  match l with
  | [] => raise ValueError
  | x :: xs => ret (fold_left Z.min xs x)
  end.

(** [range(n)] as a list. *)
Definition py_range (n : Z) : list Z :=
  map Z.of_nat (seq 0 (Z.to_nat n)).

Definition py_assert (b : bool) : M unit :=
  if b then ret tt else raise AssertionError.

(** *** List objects *)

Definition contents (p : loc) : M (list ref) := fun s =>
  match nth_error (lists s) p with
  | Some l => (Val l, s)
  | None => (Err DanglingReference, s)
  end.

(** [len(population)] *)
Definition len (p : loc) : M Z :=
  l <- contents p ;; ret (Z.of_nat (length l)).

(** [population[i]]: negative indices count from the end. *)
Definition getitem (p : loc) (i : Z) : M ref :=
  l <- contents p ;;
  let j := if i <? 0 then i + Z.of_nat (length l) else i in
  if j <? 0 then raise IndexError
  else match nth_error l (Z.to_nat j) with
       | Some r => ret r
       | None => raise IndexError
       end.

(** A new list object; its address is the next free one. *)
Definition new_list (l : list ref) : M loc := fun s =>
  (Val (length (lists s)), mkState (rng s) (lists s ++ [l]) (inds s)).

Fixpoint update {A} (n : nat) (f : A -> A) (l : list A) : list A :=
  match l, n with
  | [], _ => []
  | x :: l', O => f x :: l'
  | x :: l', S n' => x :: update n' f l'
  end.

(** [p.append(x)]: an update of the list object in place. *)
Definition append (p : loc) (x : ref) : M unit := fun s =>
  match nth_error (lists s) p with
  | Some _ =>
      (Val tt, mkState (rng s) (update p (fun l => l ++ [x]) (lists s)) (inds s))
  | None => (Err DanglingReference, s)
  end.

(** [population[:n]]: a new list; a negative bound counts from the end and
    a bound past the end is clipped. *)
Definition slice_to (l : list ref) (n : Z) : list ref :=
  if n <? 0 then firstn (Z.to_nat (Z.of_nat (length l) + n)) l
  else firstn (Z.to_nat n) l.

(** *** Individual objects *)

Definition deref (r : ref) : M Individual := fun s =>
  match nth_error (inds s) r with
  | Some i => (Val i, s)
  | None => (Err DanglingReference, s)
  end.

(** [x.size]; an Individual without a tree has none. *)
Definition attr_size (r : ref) : M Z :=
  i <- deref r ;;
  match ind_size i with
  | Some n => ret n
  | None => raise AttributeError
  end.

(** [x.fitness]: may be unset. *)
Definition attr_fitness (r : ref) : M (option Q) :=
  i <- deref r ;; ret (fitness i).

(** Modelled from the spec: Individual.getDepth is not in the source at
    hand; it answers the depth of the tree. *)
Definition getDepth (r : ref) : M Z :=
  i <- deref r ;;
  match ind_depth i with
  | Some n => ret n
  | None => raise AttributeError
  end.

(** Modelled from the spec: Individual.getHead is not in the source at
    hand; it hands out a copy of the tree, which the variation operators
    edit in place of the parent's. *)
Definition getHead (r : ref) : M Node :=
  i <- deref r ;;
  match head i with
  | Some t => ret t
  | None => raise AttributeError
  end.

(** Modelled from the spec: the constructor
    [Individual(operators, terminals, max_depth, model_name, fitnessType)]
    is not in the source at hand; it makes a new object that keeps the
    five values and has no tree and no fitness yet. *)
Definition new_Individual (ops : list (string * Z)) (ts : list string)
    (md : Z) (mn ft : string) : M ref := fun s =>
  (Val (length (inds s)),
   mkState (rng s) (lists s)
     (inds s ++ [mkIndividual ops ts md mn ft None None])).

(** Modelled from the spec: Individual.copy is not in the source at
    hand; with [i.copy(h)] the Individual adopts the tree [h]. *)
Definition copy (r : ref) (h : Node) : M unit := fun s =>
  match nth_error (inds s) r with
  | Some _ =>
      (Val tt,
       mkState (rng s) (lists s)
         (update r (fun i => mkIndividual (operators i) (terminals i)
                               (max_depth i) (model_name i) (fitnessType i)
                               (Some h) (fitness i)) (inds s)))
  | None => (Err DanglingReference, s)
  end.

(** *** sorted(..., key=...) *)

Section StableSort.
Context {K : Type} (lt : K -> K -> bool).

(** The new element goes before the first one that is not smaller: equal
    keys keep their order, as in Python's stable sort, which compares
    with [<] only. *)
Fixpoint insert_by (x : K * ref) (l : list (K * ref)) : list (K * ref) :=
  match l with
  | [] => [x]
  | y :: l' =>
      if lt (fst y) (fst x) then y :: insert_by x l' else x :: y :: l'
  end.

Definition sort_by (l : list (K * ref)) : list (K * ref) :=
  fold_right insert_by [] l.
End StableSort.

Definition Qlt_bool (a b : Q) : bool := negb (Qle_bool b a).

Fixpoint all_some {A} (l : list (option A)) : option (list A) :=
  match l with
  | [] => Some []
  | Some x :: l' => option_map (cons x) (all_some l')
  | None :: _ => None
  end.

(** [sorted(population, key=lambda x: x.size)]: a new list object. *)
Definition sorted_by_size (p : loc) : M loc :=
  l <- contents p ;;
  ks <- mapM attr_size l ;;
  new_list (map snd (sort_by Z.ltb (combine ks l))).

(** [sorted(candidates, key=lambda x: x.fitness)]: a new list object.  With
    two elements or more every key takes part in a comparison, and an
    unset fitness makes the comparison raise. *)
Definition sorted_by_fitness (p : loc) : M loc :=
  l <- contents p ;;
  ks <- mapM attr_fitness l ;;
  match all_some ks with
  | Some qs => new_list (map snd (sort_by Qlt_bool (combine qs l)))
  | None => if (length l <? 2)%nat then new_list l else raise TypeError
  end.

(** ** The operators of GeneticOperators.py *)

(** What a selection pass returns: a list of winners in first-tournament
    mode, one Individual otherwise. *)
Inductive value : Type :=
| VList (p : loc)
| VInd (r : ref).

(** Using a value as the population argument: [len] of an Individual is
    a TypeError. *)
Definition as_list (v : value) : M loc :=
  match v with
  | VList p => ret p
  | VInd _ => raise TypeError
  end.

(** Using a value as an Individual: a list has none of its attributes. *)
Definition as_ind (v : value) : M ref :=
  match v with
  | VInd r => ret r
  | VList _ => raise AttributeError
  end.

(** [[rng.randint(0, len(population)-1) for _ in range(n)]]: the
    comprehension that every tournament draws its competitors with. *)
Definition draw_indices (population : loc) (n : Z) : M (list Z) :=
  comprehension n (N <- len population ;; randint 0 (N - 1)).

Definition tournament (population : loc) (n : Z) : M ref :=
  candidates <- draw_indices population n ;;
  m <- py_min candidates ;;
  getitem population m.

Definition fit_tournament (population : loc) (Sf n_comp : Z)
    (first_tournament : bool) : M value :=
  if first_tournament then
    candidates <- comprehension Sf
                    (cs <- draw_indices population n_comp ;;
                     m <- py_min cs ;;
                     getitem population m) ;;
    c <- new_list candidates ;;
    q <- sorted_by_fitness c ;;
    ret (VList q)
  else
    N <- len population ;;
    candidates <- sample (py_range N) Sf ;;
    m <- py_min candidates ;;
    r <- getitem population m ;;
    ret (VInd r).

Definition size_tournament (population : loc) (Sp n_comp : Z)
    (first_tournament : bool) : M value :=
  sorted_population <- sorted_by_size population ;;
  if first_tournament then
    candidates <- comprehension Sp
                    (cs <- draw_indices population n_comp ;;
                     m <- py_min cs ;;
                     getitem sorted_population m) ;;
    c <- new_list candidates ;;
    q <- sorted_by_fitness c ;;
    ret (VList q)
  else
    N <- len population ;;
    candidates <- sample (py_range N) Sp ;;
    m <- py_min candidates ;;
    r <- getitem sorted_population m ;;
    ret (VInd r).

Definition double_tournament (population : loc) (Sf Sp n_comp : Z)
    (switch : bool) : M value :=
  if switch then
    py_assert (Sp >=? Sf) ;;;
    qualifiers <- size_tournament population Sp n_comp true ;;
    q <- as_list qualifiers ;;
    fit_tournament q Sf n_comp false
  else
    py_assert (Sf >=? Sp) ;;;
    qualifiers <- fit_tournament population Sf n_comp true ;;
    q <- as_list qualifiers ;;
    size_tournament q Sp n_comp false.

Definition getElite (population : loc) (n : Z) : M loc :=
  l <- contents population ;;
  new_list (slice_to l n).

Definition discardDeep (population : loc) (limit : Z) : M loc :=
  ret_ <- new_list [] ;;
  l <- contents population ;;
  forM_ l (fun ind =>
             d <- getDepth ind ;;
             if d <=? limit then append ret_ ind else ret tt) ;;;
  ret ret_.

(** *** Variation *)

(** Modelled from the spec: Node.getRandomNode is not in the source at
    hand; it picks a node of the tree uniformly, here by its preorder
    rank. *)
Definition getRandomNode (h : Node) : M nat :=
  i <- randint 0 (Z.of_nat (nsize h) - 1) ;; ret (Z.to_nat i).

(** Modelled from the spec: Node.swap is not in the source at hand.
    [n1.swap(n2)] for a node [n1] of [h1] and a node [n2] of [h2], two
    trees that share no node: each tree receives the other's subtree. *)
Definition swap (h1 : Node) (n1 : nat) (h2 : Node) (n2 : nat) : Node * Node :=
  (graft_at h1 n1 (subtree_at h2 n2), graft_at h2 n2 (subtree_at h1 n1)).

(** [l[rng.randint(0, len(l)-1)]] *)
Definition choice {A} (l : list A) : M A :=
  i <- randint 0 (Z.of_nat (length l) - 1) ;;
  match nth_error l (Z.to_nat i) with
  | Some x => ret x
  | None => raise IndexError
  end.

(** Modelled from the spec: Node.create is not in the source at hand.  It
    grows a random tree of depth at most [d] from the operator and the
    terminal sets: below the bound a coin decides between an operator,
    whose arguments are grown one level lower, and a terminal; at the
    bound it is a terminal. *)
Fixpoint create (d : nat) (ops : list (string * Z)) (ts : list string)
  : M Node :=
  match d with
  | S d' =>
      match d' with
      | S _ =>
          c <- random ;;
          if Qlt_bool c (1 # 2) then
            op <- choice ops ;;
            bs <- replicateM (Z.to_nat (snd op)) (create d' ops ts) ;;
            ret (mkNode (fst op) bs)
          else
            t <- choice ts ;; ret (mkNode t [])
      | O => t <- choice ts ;; ret (mkNode t [])
      end
  | O => t <- choice ts ;; ret (mkNode t [])
  end.

Definition STXO (population : loc) (tournament_size : Z) (double : bool)
    (Sf Sp : Z) (Switch : bool) : M loc :=
  ind1 <- (if negb double then tournament population tournament_size
           else v <- double_tournament population Sf Sp tournament_size Switch ;;
                as_ind v) ;;
  ind2 <- (if negb double then tournament population tournament_size
           else v <- double_tournament population Sf Sp tournament_size Switch ;;
                as_ind v) ;;
  h1 <- getHead ind1 ;;
  h2 <- getHead ind2 ;;
  n1 <- getRandomNode h1 ;;
  n2 <- getRandomNode h2 ;;
  let hs := swap h1 n1 h2 n2 in
  ret_ <- new_list [] ;;
  forM_ [fst hs; snd hs]
    (fun h =>
       p <- deref ind1 ;;
       i <- new_Individual (operators p) (terminals p) (max_depth p)
              (model_name p) (fitnessType p) ;;
       copy i h ;;;
       append ret_ i) ;;;
  ret ret_.

Definition STMUT (population : loc) (tournament_size : Z) (double : bool)
    (Sf Sp : Z) (Switch : bool) : M loc :=
  ind1 <- (if negb double then tournament population tournament_size
           else v <- double_tournament population Sf Sp tournament_size Switch ;;
                as_ind v) ;;
  h1 <- getHead ind1 ;;
  n1 <- getRandomNode h1 ;;
  p <- deref ind1 ;;
  n <- create (Z.to_nat (max_depth p)) (operators p) (terminals p) ;;
  let h1' := graft_at h1 n1 n in
  ret_ <- new_list [] ;;
  p <- deref ind1 ;;
  i <- new_Individual (operators p) (terminals p) (max_depth p)
         (model_name p) (fitnessType p) ;;
  copy i h1' ;;;
  append ret_ i ;;;
  ret ret_.

Definition getOffspring (population : loc) (tournament_size : Z)
    (double : bool) (Sf Sp : Z) (Switch : bool) : M loc :=
  c <- random ;;
  let isCross := Qlt_bool c (1 # 2) in
  if isCross then STXO population tournament_size double Sf Sp Switch
  else STMUT population tournament_size double Sf Sp Switch.


(** ** Specification vocabulary *)

(** [returns m s post]: from [s] the computation ends with a value, and
    the value and the final state satisfy [post]. *)
Definition returns {A} (m : M A) (s : State) (post : A -> State -> Prop) : Prop :=
  exists a s', m s = (Val a, s') /\ post a s'.

(** The store of [s'] is that of [s]: only the random source moved. *)
Definition same_store (s s' : State) : Prop :=
  lists s' = lists s /\ inds s' = inds s.

(** The [k] indices that [k] successive [randint(0, N-1)] produce: the
    next [k] raw values of the source, each reduced to [[0, N)]. *)
Definition draws (g : Rng) (N : Z) (k : nat) : list Z :=
  map (fun i => entropy g (cursor g + i) mod N) (seq 0 k).

(** What the store says of the Individual behind a reference. *)
Definition size_of (s : State) (r : ref) : option Z :=
  match nth_error (inds s) r with
  | Some i => ind_size i
  | None => None
  end.

Definition depth_of (s : State) (r : ref) : option Z :=
  match nth_error (inds s) r with
  | Some i => ind_depth i
  | None => None
  end.

Definition fitness_of (s : State) (r : ref) : option Q :=
  match nth_error (inds s) r with
  | Some i => fitness i
  | None => None
  end.

(** An Individual with a tree, and one that has been evaluated as well. *)
Definition grown (s : State) (r : ref) : Prop :=
  exists n, size_of s r = Some n.

Definition evaluated (s : State) (r : ref) : Prop :=
  exists q, fitness_of s r = Some q.

(** Orders by key, on references. *)
Definition by_key {K} (key : ref -> option K) (le : K -> K -> Prop)
    (a b : ref) : Prop :=
  match key a, key b with
  | Some x, Some y => le x y
  | _, _ => False
  end.

Definition size_le (s : State) : ref -> ref -> Prop :=
  by_key (size_of s) Z.le.

Definition fitness_le (s : State) : ref -> ref -> Prop :=
  by_key (fitness_of s) Qle.

(** ** Sample stores *)

(** A random source that replays a script of raw values, then zeros. *)
Definition scripted (l : list Z) : Rng := mkRng (fun t => nth t l 0) 0.

Definition leaf (v : string) : Node := mkNode v [].

(** Two Individuals: a better one of three nodes, a worse one of one. *)
Definition sample_plus : Individual :=
  mkIndividual [("+"%string, 2)] ["x"%string; "y"%string] 2
    "model_a"%string "Accuracy"%string
    (Some (mkNode "+" [leaf "x"; leaf "y"])) (Some (1 # 1)%Q).

Definition sample_leaf : Individual :=
  mkIndividual [("*"%string, 2)] ["z"%string] 5
    "model_b"%string "RMSE"%string
    (Some (leaf "z")) (Some (2 # 1)%Q).

(** One population list, at address 0, over the two Individuals. *)
Definition sample_state (script : list Z) : State :=
  mkState (scripted script) [[0%nat; 1%nat]] [sample_plus; sample_leaf].

(** Nothing that [s] holds was changed on the way to [s']: every list
    object of [s] has the same items, in the same order, and the
    Individuals are the same.  (New objects may have been created.) *)
Definition untouched (s s' : State) : Prop :=
  inds s' = inds s /\
  forall p l, nth_error (lists s) p = Some l -> nth_error (lists s') p = Some l.

(** A computation that only reads the store and draws numbers. *)
Definition frame {A} (m : M A) : Prop :=
  forall s, untouched s (snd (m s)).

(** The test of the depth filter. *)
Definition within_depth (s : State) (limit : Z) (r : ref) : bool :=
  match depth_of s r with
  | Some d => d <=? limit
  | None => false
  end.

(** [s] is [s0] with one more list object, whatever its items. *)
Definition one_more_list (s0 s : State) : Prop :=
  inds s = inds s0 /\ exists acc, lists s = lists s0 ++ [acc].

(** The size key of a reference, for references that have one. *)
Definition size_or_zero (s : State) (r : ref) : Z :=
  match size_of s r with Some n => n | None => 0 end.

(** A computation that never fails an assertion. *)
Definition never_asserts {A} (m : M A) : Prop :=
  forall s, fst (m s) <> Err AssertionError.

(** The dominance constraint of the double tournament is broken. *)
Definition dominance_violated (Sf Sp : Z) (switch : bool) : Prop :=
  if switch then Sp < Sf else Sf < Sp.

(** The parent selection that STXO and STMUT both spell out: a plain
    tournament, or the double tournament when [double] is set. *)
Definition select_parent (population : loc) (tournament_size : Z)
    (double : bool) (Sf Sp : Z) (Switch : bool) : M ref :=
  if negb double then tournament population tournament_size
  else v <- double_tournament population Sf Sp tournament_size Switch ;;
       as_ind v.

(** The Individual that the variation operators build for a tree [h]
    next to a parent [p]: the parent's configuration, no fitness yet. *)
Definition offspring_of (p : Individual) (h : Node) : Individual :=
  mkIndividual (operators p) (terminals p) (max_depth p) (model_name p)
    (fitnessType p) (Some h) None.

(** A computation that touches nothing but the random source. *)
Definition draws_only {A} (m : M A) : Prop :=
  forall s, same_store s (snd (m s)).

(** Everything that [s] holds is still there in [s'], unchanged: each
    list object with its items and each Individual as it was.  (New lists
    and new Individuals may have been created.) *)
Definition grows (s s' : State) : Prop :=
  (forall p l, nth_error (lists s) p = Some l ->
               nth_error (lists s') p = Some l) /\
  (forall r i, nth_error (inds s) r = Some i ->
               nth_error (inds s') r = Some i).

(** A computation that only creates: whatever its outcome, it leaves the
    objects it found as they were. *)
Definition preserves {A} (m : M A) : Prop :=
  forall s, grows s (snd (m s)).

(** ** Reasoning about runs *)

Lemma bind_val {A B} (m : M A) (f : A -> M B) s a s1 :
  m s = (Val a, s1) -> bind m f s = f a s1.
Proof. intros H. unfold bind. now rewrite H. Qed.

Lemma bind_err {A B} (m : M A) (f : A -> M B) s e s1 :
  m s = (Err e, s1) -> bind m f s = (Err e, s1).
Proof. intros H. unfold bind. now rewrite H. Qed.

Lemma returns_ret {A} (a : A) s (post : A -> State -> Prop) :
  post a s -> returns (ret a) s post.
Proof. intros H. exists a, s. split; [reflexivity | exact H]. Qed.

Lemma returns_eq {A} (m : M A) s a s' (post : A -> State -> Prop) :
  m s = (Val a, s') -> post a s' -> returns m s post.
Proof. intros H1 H2. exists a, s'. split; assumption. Qed.

Lemma returns_bind {A B} (m : M A) (f : A -> M B) s (post : B -> State -> Prop) :
  returns m s (fun a s' => returns (f a) s' post) ->
  returns (bind m f) s post.
Proof.
  intros (a & s1 & Hm & b & s2 & Hf & Hp).
  exists b, s2. split; [| exact Hp].
  rewrite (bind_val _ _ _ _ _ Hm). exact Hf.
Qed.

Lemma returns_weaken {A} (m : M A) s (post post' : A -> State -> Prop) :
  returns m s post ->
  (forall a s', post a s' -> post' a s') ->
  returns m s post'.
Proof.
  intros (a & s' & Hm & Hp) Himp. exists a, s'. split; [exact Hm | auto].
Qed.

Lemma returns_not_err {A} (m : M A) s post e :
  returns m s post -> fst (m s) <> Err e.
Proof. intros (a & s' & Hm & _). rewrite Hm. discriminate. Qed.

Lemma same_store_refl s : same_store s s.
Proof. split; reflexivity. Qed.

Lemma same_store_trans s1 s2 s3 :
  same_store s1 s2 -> same_store s2 s3 -> same_store s1 s3.
Proof. intros [A1 B1] [A2 B2]. split; congruence. Qed.

Lemma replicateM_returns {A} (body : M A) (P : A -> Prop) (s0 : State) :
  (forall s, same_store s0 s ->
             returns body s (fun a s' => P a /\ same_store s0 s')) ->
  forall n s, same_store s0 s ->
    returns (replicateM n body) s
      (fun xs s' => length xs = n /\ Forall P xs /\ same_store s0 s').
Proof.
  intros Hbody. induction n as [| n IH]; intros s Hs; simpl.
  - apply returns_ret. auto.
  - apply returns_bind.
    apply (returns_weaken _ _ _ _ (Hbody s Hs)).
    intros a s1 [Pa Hs1].
    apply returns_bind.
    apply (returns_weaken _ _ _ _ (IH s1 Hs1)).
    intros xs s2 (Hlen & Hall & Hs2).
    apply returns_ret. simpl. auto.
Qed.

(** *** The draws of the random source *)

Lemma draws_length g N k : length (draws g N k) = k.
Proof. unfold draws. now rewrite length_map, length_seq. Qed.

Lemma draws_S g N k :
  draws g N (S k) = entropy g (cursor g) mod N :: draws (advance 1 g) N k.
Proof.
  unfold draws. rewrite <- cons_seq, <- seq_shift. simpl.
  rewrite Nat.add_0_r, map_map. f_equal.
  apply map_ext. intros i. do 2 f_equal. lia.
Qed.

Lemma draws_range g N k :
  0 < N -> Forall (fun c => 0 <= c < N) (draws g N k).
Proof.
  intros HN. unfold draws. apply Forall_forall. intros c Hc.
  apply in_map_iff in Hc. destruct Hc as (i & <- & _).
  apply Z.mod_pos_bound. exact HN.
Qed.

(** Every vector of indices is the draw of some source: repeated indices
    included, the draws are with replacement. *)
Lemma draws_onto N (vs : list Z) :
  Forall (fun c => 0 <= c < N) vs ->
  draws (mkRng (fun t => nth t vs 0) 0) N (length vs) = vs.
Proof.
  intros Hvs. unfold draws. simpl.
  apply nth_ext with (d := (nth 0 vs 0) mod N) (d' := 0).
  - now rewrite length_map, length_seq.
  - intros n Hn. rewrite length_map, length_seq in Hn.
    rewrite (map_nth (fun i => nth i vs 0 mod N) (seq 0 (length vs)) 0%nat n).
    rewrite seq_nth by exact Hn. simpl.
    apply Z.mod_small.
    rewrite Forall_forall in Hvs. apply Hvs. now apply nth_In.
Qed.

Lemma advance_advance g a b : advance b (advance a g) = advance (a + b) g.
Proof. unfold advance. simpl. f_equal. lia. Qed.

Lemma with_rng_with_rng s g g' : with_rng (with_rng s g) g' = with_rng s g'.
Proof. reflexivity. Qed.

Lemma advance_0 s : with_rng s (advance 0 (rng s)) = s.
Proof.
  destruct s as [[e c] ls ix]. unfold with_rng, advance. simpl.
  now rewrite Nat.add_0_r.
Qed.

Lemma contents_run s p l :
  nth_error (lists s) p = Some l -> contents p s = (Val l, s).
Proof. intros H. unfold contents. now rewrite H. Qed.

Lemma len_run s p l :
  nth_error (lists s) p = Some l -> len p s = (Val (Z.of_nat (length l)), s).
Proof.
  intros H. unfold len. now rewrite (bind_val _ _ _ _ _ (contents_run _ _ _ H)).
Qed.

Lemma randint_run s lo hi :
  lo <= hi ->
  randint lo hi s =
    (Val (lo + entropy (rng s) (cursor (rng s)) mod (hi - lo + 1)),
     with_rng s (advance 1 (rng s))).
Proof.
  intros H. unfold randint. apply Z.leb_le in H. now rewrite H.
Qed.

Lemma draw_indices_run_nat k : forall s p l,
  nth_error (lists s) p = Some l ->
  l <> [] ->
  replicateM k (N <- len p ;; randint 0 (N - 1)) s =
    (Val (draws (rng s) (Z.of_nat (length l)) k),
     with_rng s (advance k (rng s))).
Proof.
  induction k as [| k IH]; intros s p l Hp Hl.
  - simpl. unfold ret. now rewrite advance_0.
  - cbn [replicateM].
    assert (HN : 0 < Z.of_nat (length l)) by (destruct l; [congruence | simpl; lia]).
    assert (Hbody : (N <- len p ;; randint 0 (N - 1)) s =
              (Val (entropy (rng s) (cursor (rng s)) mod Z.of_nat (length l)),
               with_rng s (advance 1 (rng s)))).
    { rewrite (bind_val _ _ _ _ _ (len_run _ _ _ Hp)).
      rewrite randint_run by lia. do 2 f_equal.
      replace (Z.of_nat (length l) - 1 - 0 + 1) with (Z.of_nat (length l)) by lia.
      lia. }
    rewrite (bind_val _ _ _ _ _ Hbody).
    rewrite (bind_val _ _ _ _ _ (IH (with_rng s (advance 1 (rng s))) p l Hp Hl)).
    unfold ret. rewrite draws_S. simpl rng.
    rewrite with_rng_with_rng, advance_advance. reflexivity.
Qed.

Lemma draw_indices_run s p l n :
  nth_error (lists s) p = Some l ->
  l <> [] ->
  draw_indices p n s =
    (Val (draws (rng s) (Z.of_nat (length l)) (Z.to_nat n)),
     with_rng s (advance (Z.to_nat n) (rng s))).
Proof. intros. unfold draw_indices, comprehension. now apply draw_indices_run_nat. Qed.

(** *** [min] and indexing *)

Lemma fold_min_le xs : forall x, fold_left Z.min xs x <= x.
Proof.
  induction xs as [| y xs IH]; intros x; simpl; [lia |].
  specialize (IH (Z.min x y)). lia.
Qed.

Lemma fold_min_spec xs : forall x,
  In (fold_left Z.min xs x) (x :: xs) /\
  Forall (fun c => fold_left Z.min xs x <= c) (x :: xs).
Proof.
  induction xs as [| y xs IH]; intros x; simpl.
  - split; [auto | constructor; [lia | constructor]].
  - destruct (IH (Z.min x y)) as [Hin Hall].
    inversion Hall as [| ? ? Hhd Htl]; subst.
    split.
    + simpl in Hin. destruct Hin as [Hin | Hin]; [| simpl; auto].
      destruct (Z.min_spec x y) as [[_ E] | [_ E]];
        [left | right; left]; congruence.
    + constructor; [lia |]. constructor; [lia | exact Htl].
Qed.

Lemma py_min_returns (l : list Z) s :
  l <> [] ->
  exists m, py_min l s = (Val m, s) /\ In m l /\ Forall (fun c => m <= c) l.
Proof.
  destruct l as [| x xs]; [congruence | intros _].
  exists (fold_left Z.min xs x). split; [reflexivity |]. apply fold_min_spec.
Qed.

Lemma getitem_run s p l m :
  nth_error (lists s) p = Some l ->
  0 <= m < Z.of_nat (length l) ->
  exists r, nth_error l (Z.to_nat m) = Some r /\ getitem p m s = (Val r, s).
Proof.
  intros Hp Hm.
  destruct (nth_error l (Z.to_nat m)) as [r |] eqn:E.
  - exists r. split; [reflexivity |].
    unfold getitem. rewrite (bind_val _ _ _ _ _ (contents_run _ _ _ Hp)).
    assert (E1 : (m <? 0) = false) by (apply Z.ltb_ge; lia).
    rewrite E1, E1, E. reflexivity.
  - apply nth_error_None in E. lia.
Qed.

Lemma tournament_run s p l k :
  nth_error (lists s) p = Some l ->
  l <> [] ->
  1 <= k ->
  exists m r,
    In m (draws (rng s) (Z.of_nat (length l)) (Z.to_nat k)) /\
    Forall (fun c => m <= c) (draws (rng s) (Z.of_nat (length l)) (Z.to_nat k)) /\
    nth_error l (Z.to_nat m) = Some r /\
    tournament p k s = (Val r, with_rng s (advance (Z.to_nat k) (rng s))).
Proof.
  intros Hp Hl Hk.
  assert (HN : 0 < Z.of_nat (length l)) by (destruct l; [congruence | simpl; lia]).
  set (cs := draws (rng s) (Z.of_nat (length l)) (Z.to_nat k)).
  assert (Hcs : cs <> []).
  { intros E. apply (f_equal (@length Z)) in E. unfold cs in E.
    rewrite draws_length in E. simpl in E. lia. }
  set (s1 := with_rng s (advance (Z.to_nat k) (rng s))).
  destruct (py_min_returns cs s1 Hcs) as (m & Hmin & Hin & Hle).
  assert (Hrange : 0 <= m < Z.of_nat (length l)).
  { pose proof (draws_range (rng s) _ (Z.to_nat k) HN) as R.
    rewrite Forall_forall in R. apply R. exact Hin. }
  destruct (getitem_run s1 p l m Hp Hrange) as (r & Hr & Hget).
  exists m, r. repeat split; try assumption.
  unfold tournament.
  rewrite (bind_val _ _ _ _ _ (draw_indices_run s p l k Hp Hl)).
  fold cs s1. rewrite (bind_val _ _ _ _ _ Hmin). exact Hget.
Qed.

(** ** Tournament selection *)

(** C3: on a population of [N >= 1] Individuals and for [1 <= k <= N],
    [tournament] consumes exactly [k] draws of [randint(0, N-1)], each an
    index of [[0, N)] and any vector of such indices being possible
    (replacement), and returns the Individual at the least drawn index. *)
Theorem tournament_min_of_draws :
  forall (s : State) (p : loc) (l : list ref) (k : Z),
    nth_error (lists s) p = Some l ->
    (1 <= length l)%nat ->
    1 <= k <= Z.of_nat (length l) ->
    let N := Z.of_nat (length l) in
    let cs := draws (rng s) N (Z.to_nat k) in
    length cs = Z.to_nat k /\
    Forall (fun c => 0 <= c < N) cs /\
    (forall vs, length vs = Z.to_nat k -> Forall (fun c => 0 <= c < N) vs ->
                exists g, draws g N (Z.to_nat k) = vs) /\
    exists m r,
      In m cs /\ Forall (fun c => m <= c) cs /\
      nth_error l (Z.to_nat m) = Some r /\
      tournament p k s = (Val r, with_rng s (advance (Z.to_nat k) (rng s))).
Proof.
  intros s p l k Hp Hlen Hk N cs.
  assert (Hl : l <> []) by (destruct l; [simpl in Hlen; lia | congruence]).
  split; [apply draws_length |].
  split; [apply draws_range; unfold N; lia |].
  split.
  - intros vs Hvs Hall. exists (mkRng (fun t => nth t vs 0) 0).
    rewrite <- Hvs. now apply draws_onto.
  - apply tournament_run; [assumption | assumption | lia].
Qed.

Lemma tournament_min_of_draws_witness :
  exists r, nth_error [0%nat; 1%nat] 0 = Some r /\
            fst (tournament 0%nat 2 (sample_state [1; 0])) = Val r.
Proof.
  destruct (tournament_min_of_draws (sample_state [1; 0]) 0%nat [0%nat; 1%nat] 2)
    as (_ & _ & _ & m & r & _ & _ & _ & Hrun);
    [reflexivity | simpl; lia | simpl; lia |].
  exists r. split; [| now rewrite Hrun].
  apply (f_equal fst) in Hrun. vm_compute in Hrun.
  injection Hrun as <-. reflexivity.
Defined.

(** C4, the claim as stated fails: with two Individuals and both draws
    equal to 1, a tournament of size 2 returns the second one. *)
Lemma tournament_full_size_not_best :
  ~ (forall (s : State) (p : loc) (l : list ref),
        nth_error (lists s) p = Some l ->
        (1 <= length l)%nat ->
        exists r, hd_error l = Some r /\
                  fst (tournament p (Z.of_nat (length l)) s) = Val r).
Proof.
  intros H.
  destruct (H (sample_state [1; 1]) 0%nat [0%nat; 1%nat]) as (r & Hhd & Hrun);
    [reflexivity | simpl; lia |].
  vm_compute in Hhd, Hrun. congruence.
Qed.

(** C4, amended: with [k = N] the tournament returns the Individual at the
    least of [N] draws with replacement; that is the first element of the
    population exactly when some draw is 0 (always when [N = 1]), and an
    element further down otherwise. *)
Theorem tournament_full_size :
  forall (s : State) (p : loc) (l : list ref),
    nth_error (lists s) p = Some l ->
    (1 <= length l)%nat ->
    let N := Z.of_nat (length l) in
    let cs := draws (rng s) N (length l) in
    exists m r,
      In m cs /\ Forall (fun c => m <= c) cs /\
      nth_error l (Z.to_nat m) = Some r /\
      fst (tournament p N s) = Val r /\
      (m = 0 <-> In 0 cs) /\
      (In 0 cs -> hd_error l = Some r) /\
      (~ In 0 cs -> 1 <= m < N) /\
      (length l = 1%nat -> hd_error l = Some r).
Proof.
  intros s p l Hp Hlen N cs.
  assert (Hl : l <> []) by (destruct l; [simpl in Hlen; lia | congruence]).
  destruct (tournament_run s p l N Hp Hl) as (m & r & Hin & Hle & Hr & Hrun);
    [unfold N; lia |].
  unfold N in Hin, Hle, Hrun. rewrite Nat2Z.id in Hin, Hle. fold N cs in Hin, Hle.
  assert (Hrange : Forall (fun c => 0 <= c < N) cs)
    by (apply draws_range; unfold N; lia).
  rewrite Forall_forall in Hrange, Hle.
  assert (Hm : 0 <= m < N) by auto.
  assert (Hzero : m = 0 <-> In 0 cs).
  { split; [intros <-; exact Hin | intros H0; specialize (Hle 0 H0); lia]. }
  assert (Hfirst : m = 0 -> hd_error l = Some r).
  { intros ->. simpl in Hr. destruct l; [discriminate | exact Hr]. }
  exists m, r.
  split; [exact Hin |].
  split; [rewrite Forall_forall; exact Hle |].
  split; [exact Hr |].
  split; [unfold N; now rewrite Hrun |].
  split; [exact Hzero |].
  split; [intros H0; apply Hfirst, Hzero, H0 |].
  split.
  - intros Hn0. destruct (Z.eq_dec m 0) as [E | E]; [| lia].
    exfalso. apply Hn0, Hzero, E.
  - intros H1. apply Hfirst. unfold N in Hm. rewrite H1 in Hm. lia.
Qed.

Lemma tournament_full_size_witness :
  exists r, hd_error [0%nat; 1%nat] = Some r /\
            fst (tournament 0%nat 2 (sample_state [1; 0])) = Val r.
Proof.
  destruct (tournament_full_size (sample_state [1; 0]) 0%nat [0%nat; 1%nat])
    as (m & r & _ & _ & _ & Hrun & _ & Hzero & _);
    [reflexivity | simpl; lia |].
  exists r. split; [| exact Hrun].
  apply Hzero. vm_compute. auto.
Defined.

(** ** Elitism *)

Lemma getElite_run s p l n :
  nth_error (lists s) p = Some l ->
  getElite p n s =
    (Val (length (lists s)),
     mkState (rng s) (lists s ++ [slice_to l n]) (inds s)).
Proof.
  intros Hp. unfold getElite.
  now rewrite (bind_val _ _ _ _ _ (contents_run _ _ _ Hp)).
Qed.

Lemma nth_error_snoc {A} (l : list A) x :
  nth_error (l ++ [x]) (length l) = Some x.
Proof. rewrite nth_error_app2 by lia. now rewrite Nat.sub_diag. Qed.

Lemma nth_error_grow {A} (l new : list A) n x :
  nth_error l n = Some x -> nth_error (l ++ new) n = Some x.
Proof.
  intros H. rewrite nth_error_app1; [exact H |].
  apply nth_error_Some. congruence.
Qed.

(** C7: for [0 <= n <= len(population)], [getElite] returns a list made of
    the first [n] references of the population, in order: the very same
    Individual objects.  No draw is consumed, no Individual and no
    existing list is touched. *)
Theorem getElite_first_n :
  forall (s : State) (p : loc) (l : list ref) (n : Z),
    nth_error (lists s) p = Some l ->
    0 <= n <= Z.of_nat (length l) ->
    exists q s',
      getElite p n s = (Val q, s') /\
      nth_error (lists s') q = Some (firstn (Z.to_nat n) l) /\
      length (firstn (Z.to_nat n) l) = Z.to_nat n /\
      rng s' = rng s /\
      inds s' = inds s /\
      (forall p' l', nth_error (lists s) p' = Some l' ->
                     nth_error (lists s') p' = Some l').
Proof.
  intros s p l n Hp Hn.
  eexists _, _. split; [apply (getElite_run _ _ _ _ Hp) |]. simpl.
  assert (E : slice_to l n = firstn (Z.to_nat n) l).
  { unfold slice_to. destruct (Z.ltb_spec n 0); [lia | reflexivity]. }
  rewrite E. repeat split.
  - apply nth_error_snoc.
  - rewrite length_firstn. lia.
  - intros p' l'. apply nth_error_grow.
Qed.

Lemma getElite_first_n_witness :
  fst (getElite 0%nat 1 (sample_state [])) = Val 1%nat /\
  nth_error (lists (snd (getElite 0%nat 1 (sample_state [])))) 1 = Some [0%nat].
Proof.
  destruct (getElite_first_n (sample_state []) 0%nat [0%nat; 1%nat] 1)
    as (q & s' & Hrun & Hq & _); [reflexivity | simpl; lia |].
  rewrite Hrun. simpl.
  assert (E : q = 1%nat) by (vm_compute in Hrun; congruence).
  rewrite E in *. split; [reflexivity | exact Hq].
Defined.

(** C10: past the end, [getElite] clips: for [n > N] it returns the whole
    population, [N = min(n, N)] references in order, and raises nothing. *)
Theorem getElite_clamps :
  forall (s : State) (p : loc) (l : list ref) (n : Z),
    nth_error (lists s) p = Some l ->
    Z.of_nat (length l) < n ->
    exists q s',
      getElite p n s = (Val q, s') /\
      nth_error (lists s') q = Some l /\
      Z.of_nat (length l) = Z.min n (Z.of_nat (length l)) /\
      rng s' = rng s /\
      inds s' = inds s.
Proof.
  intros s p l n Hp Hn.
  eexists _, _. split; [apply (getElite_run _ _ _ _ Hp) |]. simpl.
  assert (E : slice_to l n = l).
  { unfold slice_to. destruct (Z.ltb_spec n 0); [lia |].
    apply firstn_all2. lia. }
  rewrite E. repeat split.
  - apply nth_error_snoc.
  - lia.
Qed.

Lemma getElite_clamps_witness :
  exists q s',
    getElite 0%nat 5 (sample_state []) = (Val q, s') /\
    nth_error (lists s') q = Some [0%nat; 1%nat].
Proof.
  destruct (getElite_clamps (sample_state []) 0%nat [0%nat; 1%nat] 5)
    as (q & s' & Hrun & Hq & _); [reflexivity | simpl; lia |].
  exists q, s'. split; assumption.
Defined.

(** ** The depth filter *)

Lemma update_snoc {A} (f : A -> A) (l : list A) a :
  update (length l) f (l ++ [a]) = l ++ [f a].
Proof. induction l as [| x l IH]; simpl; [reflexivity | now rewrite IH]. Qed.

Lemma append_run s L acc x :
  lists s = L ++ [acc] ->
  append (length L) x s =
    (Val tt, mkState (rng s) (L ++ [acc ++ [x]]) (inds s)).
Proof.
  intros E. unfold append. rewrite E, nth_error_snoc, update_snoc. reflexivity.
Qed.

Lemma grown_depth s r : grown s r -> exists d, depth_of s r = Some d.
Proof.
  intros [n Hn]. unfold size_of, depth_of in *.
  destruct (nth_error (inds s) r) as [i |]; [| discriminate].
  unfold ind_size, ind_depth in *.
  destruct (head i); [eexists; reflexivity | discriminate].
Qed.

Lemma getDepth_run s r d :
  depth_of s r = Some d -> getDepth r s = (Val d, s).
Proof.
  unfold depth_of, getDepth, bind, deref.
  destruct (nth_error (inds s) r) as [i |]; [| discriminate].
  intros ->. reflexivity.
Qed.

Lemma depth_of_same s s' r : inds s' = inds s -> depth_of s' r = depth_of s r.
Proof. intros E. unfold depth_of. now rewrite E. Qed.

Lemma discardDeep_loop s0 limit L : forall l acc s,
  inds s = inds s0 ->
  lists s = L ++ [acc] ->
  Forall (grown s0) l ->
  forM_ l (fun ind => d <- getDepth ind ;;
                      if d <=? limit then append (length L) ind else ret tt) s =
    (Val tt,
     mkState (rng s) (L ++ [acc ++ filter (within_depth s0 limit) l]) (inds s)).
Proof.
  induction l as [| r l IH]; intros acc s Hi Hl Hall.
  - simpl. unfold ret. rewrite app_nil_r, <- Hl. now destruct s.
  - inversion Hall as [| ? ? Hr Hall']; subst.
    destruct (grown_depth _ _ Hr) as [d Hd].
    cbn [forM_ filter]. unfold within_depth at 1. rewrite Hd.
    assert (Hget : getDepth r s = (Val d, s))
      by (apply getDepth_run; now rewrite (depth_of_same s0 s r Hi)).
    destruct (d <=? limit) eqn:E.
    + assert (Hbody :
        (d <- getDepth r ;; if d <=? limit then append (length L) r else ret tt) s =
        (Val tt, mkState (rng s) (L ++ [acc ++ [r]]) (inds s))).
      { rewrite (bind_val _ _ _ _ _ Hget), E. now apply append_run. }
      rewrite (bind_val _ _ _ _ _ Hbody).
      rewrite (IH (acc ++ [r])); [| exact Hi | reflexivity | exact Hall'].
      simpl. now rewrite <- app_assoc.
    + assert (Hbody :
        (d <- getDepth r ;; if d <=? limit then append (length L) r else ret tt) s =
        (Val tt, s)).
      { now rewrite (bind_val _ _ _ _ _ Hget), E. }
      rewrite (bind_val _ _ _ _ _ Hbody).
      now apply IH.
Qed.

Lemma discardDeep_run s p l limit :
  nth_error (lists s) p = Some l ->
  Forall (grown s) l ->
  discardDeep p limit s =
    (Val (length (lists s)),
     mkState (rng s) (lists s ++ [filter (within_depth s limit) l]) (inds s)).
Proof.
  intros Hp Hall. unfold discardDeep.
  set (s1 := mkState (rng s) (lists s ++ [[]]) (inds s)).
  assert (H1 : new_list [] s = (Val (length (lists s)), s1)) by reflexivity.
  rewrite (bind_val _ _ _ _ _ H1).
  assert (H2 : contents p s1 = (Val l, s1))
    by (apply contents_run; simpl; now apply nth_error_grow).
  rewrite (bind_val _ _ _ _ _ H2).
  rewrite (bind_val _ _ _ _ _
             (discardDeep_loop s limit (lists s) l [] s1 eq_refl eq_refl Hall)).
  reflexivity.
Qed.

Lemma filter_idem {A} (f : A -> bool) (l : list A) :
  filter f (filter f l) = filter f l.
Proof.
  induction l as [| x l IH]; simpl; [reflexivity |].
  destruct (f x) eqn:E; simpl; [rewrite E; now f_equal | exact IH].
Qed.

(** C8: [discardDeep] returns the Individuals of depth at most the limit,
    that is, removes exactly those of depth above it, in their order; run
    again on its own result with the same limit it returns the same
    items. *)
Theorem discardDeep_filters :
  forall (s : State) (p : loc) (l : list ref) (limit : Z),
    nth_error (lists s) p = Some l ->
    Forall (grown s) l ->
    exists q s' kept,
      discardDeep p limit s = (Val q, s') /\
      nth_error (lists s') q = Some kept /\
      kept = filter (within_depth s limit) l /\
      (forall r, In r kept <->
                 In r l /\ exists d, depth_of s r = Some d /\ ~ limit < d) /\
      rng s' = rng s /\ inds s' = inds s /\
      exists q' s'',
        discardDeep q limit s' = (Val q', s'') /\
        nth_error (lists s'') q' = Some kept.
Proof.
  intros s p l limit Hp Hall.
  set (kept := filter (within_depth s limit) l).
  set (s' := mkState (rng s) (lists s ++ [kept]) (inds s)).
  exists (length (lists s)), s', kept.
  split; [now apply discardDeep_run |].
  split; [apply nth_error_snoc |].
  split; [reflexivity |].
  split.
  { intros r. unfold kept. rewrite filter_In. unfold within_depth.
    split.
    - intros [Hin Hk]. split; [exact Hin |].
      destruct (depth_of s r) as [d |]; [| discriminate].
      exists d. split; [reflexivity |]. apply Z.leb_le in Hk. lia.
    - intros [Hin (d & Hd & Hle)]. split; [exact Hin |].
      rewrite Hd. apply Z.leb_le. lia. }
  split; [reflexivity |]. split; [reflexivity |].
  assert (Hkept : Forall (grown s') kept).
  { unfold kept. apply Forall_forall. intros r Hr.
    apply filter_In in Hr. destruct Hr as [Hr _].
    rewrite Forall_forall in Hall. exact (Hall r Hr). }
  eexists _, _. split.
  - apply (discardDeep_run s' (length (lists s)) kept limit);
      [apply nth_error_snoc | exact Hkept].
  - change (nth_error (lists s' ++ [filter (within_depth s limit) kept])
                       (length (lists s')) = Some kept).
    rewrite nth_error_snoc. f_equal. apply filter_idem.
Qed.

Lemma discardDeep_filters_witness :
  exists q s',
    discardDeep 0%nat 1 (sample_state []) = (Val q, s') /\
    nth_error (lists s') q = Some [1%nat].
Proof.
  destruct (discardDeep_filters (sample_state []) 0%nat [0%nat; 1%nat] 1)
    as (q & s' & kept & Hrun & Hq & Hk & _).
  - reflexivity.
  - repeat constructor; eexists; reflexivity.
  - exists q, s'. split; [exact Hrun |]. rewrite Hq, Hk. reflexivity.
Defined.

(** ** The population argument is read-only *)

Lemma untouched_refl s : untouched s s.
Proof. split; auto. Qed.

Lemma untouched_trans s1 s2 s3 :
  untouched s1 s2 -> untouched s2 s3 -> untouched s1 s3.
Proof. intros [I1 L1] [I2 L2]. split; [congruence | auto]. Qed.

Lemma untouched_with_rng s g : untouched s (with_rng s g).
Proof. split; auto. Qed.

Lemma frame_ret {A} (a : A) : frame (ret a).
Proof. intros s. apply untouched_refl. Qed.

Lemma frame_raise {A} e : frame (@raise A e).
Proof. intros s. apply untouched_refl. Qed.

Lemma frame_bind {A B} (m : M A) (f : A -> M B) :
  frame m -> (forall a, frame (f a)) -> frame (bind m f).
Proof.
  intros Hm Hf s. unfold bind.
  specialize (Hm s). destruct (m s) as [[a | e] s1]; simpl in Hm.
  - eapply untouched_trans; [exact Hm | apply Hf].
  - exact Hm.
Qed.

Lemma frame_randint lo hi : frame (randint lo hi).
Proof.
  intros s. unfold randint. destruct (lo <=? hi); simpl;
    [apply untouched_with_rng | apply untouched_refl].
Qed.

Lemma frame_random : frame random.
Proof. intros s. apply untouched_with_rng. Qed.

Lemma frame_contents p : frame (contents p).
Proof.
  intros s. unfold contents.
  destruct (nth_error (lists s) p); apply untouched_refl.
Qed.

Lemma frame_deref r : frame (deref r).
Proof.
  intros s. unfold deref.
  destruct (nth_error (inds s) r); apply untouched_refl.
Qed.

Lemma frame_new_list l : frame (new_list l).
Proof.
  intros s. split; [reflexivity |]. intros p l'. simpl. apply nth_error_grow.
Qed.

Create HintDb frame.

#[local] Hint Resolve frame_ret frame_raise frame_randint frame_random
  frame_contents frame_deref frame_new_list : frame.

Ltac frames :=
  repeat first
    [ solve [auto with frame]
    | progress cbv zeta
    | apply frame_bind; [| intros ?]
    | match goal with
      | |- frame (if ?b then _ else _) => destruct b
      | |- frame (match ?x with _ => _ end) => destruct x
      end ].

Lemma frame_len p : frame (len p).
Proof. unfold len. frames. Qed.

Lemma frame_getitem p i : frame (getitem p i).
Proof. unfold getitem. frames. Qed.

Lemma frame_py_min l : frame (py_min l).
Proof. unfold py_min. frames. Qed.

Lemma frame_py_assert b : frame (py_assert b).
Proof. unfold py_assert. frames. Qed.

Lemma frame_as_list v : frame (as_list v).
Proof. unfold as_list. frames. Qed.

Lemma frame_attr_size r : frame (attr_size r).
Proof. unfold attr_size. frames. Qed.

Lemma frame_attr_fitness r : frame (attr_fitness r).
Proof. unfold attr_fitness. frames. Qed.

#[local] Hint Resolve frame_len frame_getitem frame_py_min frame_py_assert
  frame_as_list frame_attr_size frame_attr_fitness : frame.

Lemma frame_replicateM {A} (body : M A) n :
  frame body -> frame (replicateM n body).
Proof. intros Hb. induction n; simpl; frames. Qed.

Lemma frame_mapM {A B} (f : A -> M B) l :
  (forall a, frame (f a)) -> frame (mapM f l).
Proof. intros Hf. induction l; simpl; frames. Qed.

Lemma frame_sample_loop k : forall pool, frame (sample_loop k pool).
Proof. induction k; intros pool; simpl; frames. Qed.

Lemma frame_sample pool k : frame (sample pool k).
Proof. unfold sample. pose proof frame_sample_loop. frames. Qed.

Lemma frame_draw_indices p n : frame (draw_indices p n).
Proof. unfold draw_indices, comprehension. apply frame_replicateM. frames. Qed.

#[local] Hint Resolve frame_sample frame_draw_indices : frame.

Lemma frame_sorted_by_size p : frame (sorted_by_size p).
Proof.
  unfold sorted_by_size. frames. apply frame_mapM. auto with frame.
Qed.

Lemma frame_sorted_by_fitness p : frame (sorted_by_fitness p).
Proof.
  unfold sorted_by_fitness. frames. apply frame_mapM. auto with frame.
Qed.

#[local] Hint Resolve frame_sorted_by_size frame_sorted_by_fitness : frame.

Lemma frame_tournament p n : frame (tournament p n).
Proof. unfold tournament. frames. Qed.

Lemma frame_fit_tournament p Sf n_comp first :
  frame (fit_tournament p Sf n_comp first).
Proof.
  unfold fit_tournament, comprehension. frames.
  apply frame_replicateM. frames.
Qed.

Lemma frame_size_tournament p Sp n_comp first :
  frame (size_tournament p Sp n_comp first).
Proof.
  unfold size_tournament, comprehension. frames.
  apply frame_replicateM. frames.
Qed.

#[local] Hint Resolve frame_tournament frame_fit_tournament
  frame_size_tournament : frame.

Lemma frame_double_tournament p Sf Sp n_comp switch :
  frame (double_tournament p Sf Sp n_comp switch).
Proof. unfold double_tournament. frames. Qed.

Lemma frame_getElite p n : frame (getElite p n).
Proof. unfold getElite. frames. Qed.

(** The depth filter appends, but only to the list it has just made. *)
Lemma getDepth_state r s : snd (getDepth r s) = s.
Proof.
  unfold getDepth, bind, deref.
  destruct (nth_error (inds s) r) as [i |]; [| reflexivity].
  destruct (ind_depth i); reflexivity.
Qed.

Lemma discardDeep_body_frame s0 limit r s :
  one_more_list s0 s ->
  one_more_list s0
    (snd ((d <- getDepth r ;;
           if d <=? limit then append (length (lists s0)) r else ret tt) s)).
Proof.
  intros [Hi Hl]. unfold bind.
  pose proof (getDepth_state r s) as Hs.
  destruct (getDepth r s) as [[d | e] s1]; simpl in Hs; subst s1;
    [| split; assumption].
  destruct (d <=? limit); [| split; assumption].
  destruct Hl as [acc Hl].
  rewrite (append_run s (lists s0) acc r Hl). simpl.
  split; [exact Hi | eexists; reflexivity].
Qed.

Lemma discardDeep_loop_frame s0 limit : forall l s,
  one_more_list s0 s ->
  one_more_list s0
    (snd (forM_ l (fun ind => d <- getDepth ind ;;
                     if d <=? limit then append (length (lists s0)) ind
                     else ret tt) s)).
Proof.
  induction l as [| r l IH]; intros s Hs; cbn [forM_].
  - exact Hs.
  - pose proof (discardDeep_body_frame s0 limit r s Hs) as Hb.
    unfold bind at 1.
    destruct ((d <- getDepth r ;;
               if d <=? limit then append (length (lists s0)) r else ret tt) s)
      as [[u | e] s1]; simpl in Hb.
    + exact (IH s1 Hb).
    + exact Hb.
Qed.

Lemma one_more_list_untouched s0 s : one_more_list s0 s -> untouched s0 s.
Proof.
  intros [Hi [acc Hl]]. split; [exact Hi |].
  intros q l Hq. rewrite Hl. now apply nth_error_grow.
Qed.

Lemma frame_discardDeep p limit : frame (discardDeep p limit).
Proof.
  intros s. unfold discardDeep.
  set (s1 := mkState (rng s) (lists s ++ [[]]) (inds s)).
  assert (H1 : new_list [] s = (Val (length (lists s)), s1)) by reflexivity.
  rewrite (bind_val _ _ _ _ _ H1).
  assert (Hs1 : one_more_list s s1) by (split; [reflexivity | now exists []]).
  apply one_more_list_untouched.
  unfold bind at 1. unfold contents.
  destruct (nth_error (lists s1) p) as [l |]; [| exact Hs1].
  pose proof (discardDeep_loop_frame s limit l s1 Hs1) as Hloop.
  unfold bind.
  destruct (forM_ l _ s1) as [[[] | e] s2]; exact Hloop.
Qed.

(** C9: whatever the outcome of the call, value or exception, each of
    [tournament], [fit_tournament], [size_tournament], [double_tournament],
    [getElite] and [discardDeep] leaves the population list with the same
    items in the same order, and the Individuals as they were; the size
    pass sorts into a list object of its own. *)
Theorem population_is_read_only :
  forall (s : State) (population : loc) (l : list ref),
    nth_error (lists s) population = Some l ->
    let unchanged (s' : State) :=
      nth_error (lists s') population = Some l /\ inds s' = inds s in
    (forall n, unchanged (snd (tournament population n s))) /\
    (forall Sf n_comp first,
        unchanged (snd (fit_tournament population Sf n_comp first s))) /\
    (forall Sp n_comp first,
        unchanged (snd (size_tournament population Sp n_comp first s))) /\
    (forall Sf Sp n_comp switch,
        unchanged (snd (double_tournament population Sf Sp n_comp switch s))) /\
    (forall n, unchanged (snd (getElite population n s))) /\
    (forall limit, unchanged (snd (discardDeep population limit s))) /\
    (forall q, fst (sorted_by_size population s) = Val q ->
               q <> population /\
               unchanged (snd (sorted_by_size population s))).
Proof.
  intros s p l Hp unchanged.
  assert (H : forall s', untouched s s' -> unchanged s').
  { intros s' [Hi Hl]. split; [now apply Hl | exact Hi]. }
  split; [intros; apply H, frame_tournament |].
  split; [intros; apply H, frame_fit_tournament |].
  split; [intros; apply H, frame_size_tournament |].
  split; [intros; apply H, frame_double_tournament |].
  split; [intros; apply H, frame_getElite |].
  split; [intros; apply H, frame_discardDeep |].
  intros q Hq. split; [| apply H, frame_sorted_by_size].
  intros ->. revert Hq. unfold sorted_by_size.
  rewrite (bind_val _ _ _ _ _ (contents_run _ _ _ Hp)).
  unfold bind. pose proof (frame_mapM attr_size l frame_attr_size s) as [_ Hl].
  destruct (mapM attr_size l s) as [[ks | e] s1]; simpl in *; [| discriminate].
  intros [= E]. apply Hl in Hp.
  assert (population_in : (p < length (lists s1))%nat)
    by (apply nth_error_Some; congruence).
  lia.
Qed.

Lemma population_is_read_only_witness :
  nth_error (lists (snd (size_tournament 0%nat 2 1 true (sample_state [1; 0]))))
    0 = Some [0%nat; 1%nat].
Proof.
  destruct (population_is_read_only (sample_state [1; 0]) 0%nat [0%nat; 1%nat]
              eq_refl) as (_ & _ & Hsize & _).
  apply (proj1 (Hsize 2 1 true)).
Defined.

(** ** Sorting by key *)

Section StableSortFacts.
Context {K : Type} (lt : K -> K -> bool) (le : K -> K -> Prop).
Hypothesis lt_le : forall a b, lt a b = true -> le a b.
Hypothesis not_lt_le : forall a b, lt a b = false -> le b a.

Let R (x y : K * ref) : Prop := le (fst x) (fst y).

Lemma insert_by_perm x l : Permutation (insert_by lt x l) (x :: l).
Proof.
  induction l as [| y l IH]; simpl; [reflexivity |].
  destruct (lt (fst y) (fst x)); [| reflexivity].
  rewrite IH. apply perm_swap.
Qed.

Lemma sort_by_perm l : Permutation (sort_by lt l) l.
Proof.
  induction l as [| x l IH]; simpl; [reflexivity |].
  rewrite insert_by_perm. now constructor.
Qed.

Lemma insert_by_hd x y l :
  lt (fst y) (fst x) = true -> HdRel R y l -> HdRel R y (insert_by lt x l).
Proof.
  intros Hyx Hhd. destruct l as [| z l]; simpl.
  - constructor. apply lt_le, Hyx.
  - destruct (lt (fst z) (fst x)).
    + constructor. now inversion Hhd.
    + constructor. apply lt_le, Hyx.
Qed.

Lemma insert_by_sorted x l : Sorted R l -> Sorted R (insert_by lt x l).
Proof.
  induction l as [| y l IH]; intros Hs; simpl.
  - repeat constructor.
  - inversion Hs as [| ? ? Hs' Hhd]; subst.
    destruct (lt (fst y) (fst x)) eqn:E.
    + constructor; [now apply IH | now apply insert_by_hd].
    + constructor; [exact Hs |]. constructor. apply not_lt_le, E.
Qed.

Lemma sort_by_sorted l : Sorted R (sort_by lt l).
Proof.
  induction l as [| x l IH]; simpl; [constructor | now apply insert_by_sorted].
Qed.

(** From decorated pairs back to the references. *)
Lemma sorted_undecorate (key : ref -> option K) ps :
  Forall (fun p => key (snd p) = Some (fst p)) ps ->
  Sorted R ps ->
  Sorted (by_key key le) (map snd ps).
Proof.
  intros Hk Hs. induction Hs as [| p ps Hs IH Hhd]; simpl; [constructor |].
  inversion Hk as [| ? ? Hp Hps]; subst.
  constructor; [now apply IH |].
  destruct Hhd as [| q ps' Hpq]; simpl; constructor.
  inversion Hps as [| ? ? Hq _]; subst.
  unfold by_key. now rewrite Hp, Hq.
Qed.

Lemma sort_decorated (key : ref -> option K) ks l :
  Forall2 (fun k r => key r = Some k) ks l ->
  Permutation (map snd (sort_by lt (combine ks l))) l /\
  Sorted (by_key key le) (map snd (sort_by lt (combine ks l))).
Proof.
  intros H2.
  assert (Hdec : Forall (fun p => key (snd p) = Some (fst p)) (combine ks l)).
  { induction H2 as [| k r ks' l' Hkr _ IH]; simpl;
      [apply Forall_nil | apply Forall_cons; [exact Hkr | exact IH]]. }
  assert (Hsnd : map snd (combine ks l) = l).
  { clear Hdec. induction H2 as [| k r ks' l' _ _ IH]; simpl;
      [reflexivity | now f_equal]. }
  split.
  - rewrite <- Hsnd at 2. apply Permutation_map, sort_by_perm.
  - apply sorted_undecorate; [| apply sort_by_sorted].
    eapply Permutation_Forall; [| exact Hdec].
    symmetry. apply sort_by_perm.
Qed.
End StableSortFacts.

Lemma Qlt_bool_le a b : Qlt_bool a b = true -> (a <= b)%Q.
Proof.
  unfold Qlt_bool. intros H. apply negb_true_iff in H.
  destruct (Qlt_le_dec a b) as [L | L]; [now apply Qlt_le_weak |].
  apply Qle_bool_iff in L. congruence.
Qed.

Lemma Qlt_bool_ge a b : Qlt_bool a b = false -> (b <= a)%Q.
Proof.
  unfold Qlt_bool. intros H. apply negb_false_iff in H.
  now apply Qle_bool_iff.
Qed.

Lemma mapM_reads {A B} (f : A -> M B) (g : A -> B) s l :
  Forall (fun a => f a s = (Val (g a), s)) l ->
  mapM f l s = (Val (map g l), s).
Proof.
  induction 1 as [| a l Ha _ IH]; simpl; [reflexivity |].
  rewrite (bind_val _ _ _ _ _ Ha), (bind_val _ _ _ _ _ IH). reflexivity.
Qed.

Lemma attr_fitness_run s r :
  evaluated s r -> attr_fitness r s = (Val (fitness_of s r), s).
Proof.
  intros [q Hq]. unfold attr_fitness, bind, deref, fitness_of in *.
  destruct (nth_error (inds s) r); [reflexivity | discriminate].
Qed.

Lemma attr_size_run s r :
  grown s r -> attr_size r s = (Val (size_or_zero s r), s).
Proof.
  intros [n Hn]. unfold attr_size, bind, deref, size_or_zero, size_of in *.
  destruct (nth_error (inds s) r) as [i |]; [| discriminate].
  rewrite Hn. reflexivity.
Qed.

Lemma all_some_evaluated s l :
  Forall (evaluated s) l ->
  exists qs, all_some (map (fitness_of s) l) = Some qs /\
             Forall2 (fun q r => fitness_of s r = Some q) qs l.
Proof.
  induction 1 as [| r l [q Hq] _ (qs & E & H2)]; simpl.
  - exists []. split; [reflexivity | constructor].
  - exists (q :: qs). rewrite Hq, E. split; [reflexivity | now constructor].
Qed.

Lemma sorted_by_fitness_run s c items :
  nth_error (lists s) c = Some items ->
  Forall (evaluated s) items ->
  exists out,
    sorted_by_fitness c s =
      (Val (length (lists s)),
       mkState (rng s) (lists s ++ [out]) (inds s)) /\
    Permutation out items /\
    Sorted (fitness_le s) out.
Proof.
  intros Hc Hev.
  destruct (all_some_evaluated s items Hev) as (qs & Hqs & H2).
  destruct (sort_decorated Qlt_bool Qle Qlt_bool_le Qlt_bool_ge
              (fitness_of s) qs items H2) as [Hperm Hsorted].
  eexists. split; [| split; [exact Hperm | exact Hsorted]].
  unfold sorted_by_fitness.
  rewrite (bind_val _ _ _ _ _ (contents_run _ _ _ Hc)).
  assert (Hm : mapM attr_fitness items s = (Val (map (fitness_of s) items), s)).
  { apply mapM_reads. eapply Forall_impl; [| exact Hev].
    intros r. apply attr_fitness_run. }
  rewrite (bind_val _ _ _ _ _ Hm), Hqs. reflexivity.
Qed.

Lemma sorted_by_size_run s c items :
  nth_error (lists s) c = Some items ->
  Forall (grown s) items ->
  exists out,
    sorted_by_size c s =
      (Val (length (lists s)),
       mkState (rng s) (lists s ++ [out]) (inds s)) /\
    Permutation out items /\
    Sorted (size_le s) out.
Proof.
  intros Hc Hg.
  assert (H2 : Forall2 (fun k r => size_of s r = Some k)
                 (map (size_or_zero s) items) items).
  { clear Hc. induction Hg as [| r l [n Hn] _ IH]; simpl;
      [apply Forall2_nil | apply Forall2_cons; [| exact IH]].
    unfold size_or_zero. now rewrite Hn. }
  destruct (sort_decorated Z.ltb Z.le
              (fun a b H => Z.lt_le_incl a b (proj1 (Z.ltb_lt a b) H))
              (fun a b H => proj1 (Z.ltb_ge a b) H)
              (size_of s) _ items H2) as [Hperm Hsorted].
  eexists. split; [| split; [exact Hperm | exact Hsorted]].
  unfold sorted_by_size.
  rewrite (bind_val _ _ _ _ _ (contents_run _ _ _ Hc)).
  assert (Hm : mapM attr_size items s = (Val (map (size_or_zero s) items), s)).
  { apply mapM_reads. eapply Forall_impl; [| exact Hg].
    intros r. apply attr_size_run. }
  rewrite (bind_val _ _ _ _ _ Hm). reflexivity.
Qed.

(** ** The two passes of the double tournament *)

Lemma same_store_eq s s' : same_store s s' -> s' = with_rng s (rng s').
Proof. intros [Hl Hi]. destruct s'. unfold with_rng. simpl in *. congruence. Qed.

Lemma same_store_with_rng s g : same_store s (with_rng s g).
Proof. split; reflexivity. Qed.

Lemma nonempty_length {A} (l : list A) : l <> [] -> 0 < Z.of_nat (length l).
Proof. destruct l; [congruence | simpl; lia]. Qed.

(** One tournament of [n_comp] competitors whose winner is read in [src],
    a list as long as the population. *)
Lemma winner_returns s0 p l src l' n_comp :
  nth_error (lists s0) p = Some l ->
  l <> [] ->
  nth_error (lists s0) src = Some l' ->
  length l' = length l ->
  1 <= n_comp ->
  forall s, same_store s0 s ->
    returns (cs <- draw_indices p n_comp ;; m <- py_min cs ;; getitem src m) s
      (fun r s' => In r l' /\ same_store s0 s').
Proof.
  intros Hp Hl Hsrc Hlen Hn s Hs.
  rewrite (same_store_eq _ _ Hs). set (s1 := with_rng s0 (rng s)).
  assert (Hp1 : nth_error (lists s1) p = Some l) by exact Hp.
  set (cs := draws (rng s1) (Z.of_nat (length l)) (Z.to_nat n_comp)).
  set (s2 := with_rng s1 (advance (Z.to_nat n_comp) (rng s1))).
  assert (Hcs : cs <> []).
  { intros E. apply (f_equal (@length Z)) in E. unfold cs in E.
    rewrite draws_length in E. simpl in E. lia. }
  destruct (py_min_returns cs s2 Hcs) as (m & Hmin & Hin & _).
  assert (Hm : 0 <= m < Z.of_nat (length l')).
  { rewrite Hlen.
    pose proof (draws_range (rng s1) _ (Z.to_nat n_comp) (nonempty_length l Hl)) as R.
    rewrite Forall_forall in R. apply R, Hin. }
  destruct (getitem_run s2 src l' m Hsrc Hm) as (r & Hr & Hget).
  apply returns_eq with (a := r) (s' := s2).
  - rewrite (bind_val _ _ _ _ _ (draw_indices_run s1 p l n_comp Hp1 Hl)).
    fold cs s2. rewrite (bind_val _ _ _ _ _ Hmin). exact Hget.
  - split; [eapply nth_error_In; exact Hr | split; reflexivity].
Qed.

Lemma evaluated_same s s' r : inds s' = inds s -> evaluated s r -> evaluated s' r.
Proof. intros E [q Hq]. exists q. unfold fitness_of in *. now rewrite E. Qed.

Lemma grown_same s s' r : inds s' = inds s -> grown s r -> grown s' r.
Proof. intros E [n Hn]. exists n. unfold size_of in *. now rewrite E. Qed.

Lemma Forall_sub {A} (P : A -> Prop) (l items : list A) :
  Forall P l -> Forall (fun r => In r l) items -> Forall P items.
Proof.
  rewrite !Forall_forall. intros HP Hin x Hx. apply HP, Hin, Hx.
Qed.

(** The winners of [Sx] tournaments, put in a list and sorted by fitness. *)
Lemma shortlist_returns s0 p l src l' Sx n_comp :
  nth_error (lists s0) p = Some l ->
  l <> [] ->
  nth_error (lists s0) src = Some l' ->
  length l' = length l ->
  Forall (evaluated s0) l' ->
  1 <= n_comp ->
  returns
    (candidates <- comprehension Sx
                     (cs <- draw_indices p n_comp ;;
                      m <- py_min cs ;;
                      getitem src m) ;;
     c <- new_list candidates ;;
     q <- sorted_by_fitness c ;;
     ret (VList q)) s0
    (fun v s' =>
       exists q items,
         v = VList q /\
         nth_error (lists s') q = Some items /\
         (length (lists s0) < q)%nat /\
         length items = Z.to_nat Sx /\
         Forall (fun r => In r l') items /\
         Sorted (fitness_le s0) items /\
         untouched s0 s').
Proof.
  intros Hp Hl Hsrc Hlen Hev Hn.
  apply returns_bind. unfold comprehension.
  eapply returns_weaken.
  { apply (replicateM_returns _ (fun r => In r l') s0).
    - apply (winner_returns s0 p l src l' n_comp); assumption.
    - apply same_store_refl. }
  intros ws s1 (Hws & Hin & Hs1). cbv beta.
  rewrite (same_store_eq _ _ Hs1). set (g := rng s1).
  apply returns_bind.
  apply returns_eq with (a := length (lists s0))
                        (s' := mkState g (lists s0 ++ [ws]) (inds s0));
    [reflexivity |].
  set (s2 := mkState g (lists s0 ++ [ws]) (inds s0)).
  destruct (sorted_by_fitness_run s2 (length (lists s0)) ws) as (out & Hrun & Hperm & Hsorted).
  { apply nth_error_snoc. }
  { apply (Forall_sub _ l'); [| exact Hin].
    eapply Forall_impl; [| exact Hev]. intros r. now apply evaluated_same. }
  apply returns_bind.
  eapply returns_eq; [exact Hrun |].
  apply returns_ret.
  exists (length (lists s2)), out.
  split; [reflexivity |].
  split; [apply nth_error_snoc |].
  split; [simpl; rewrite length_app; simpl; lia |].
  split; [rewrite (Permutation_length Hperm); exact Hws |].
  split; [eapply Permutation_Forall; [symmetry; exact Hperm | exact Hin] |].
  split; [exact Hsorted |].
  split; [reflexivity |].
  intros p' lp Hp'. simpl. now apply nth_error_grow, nth_error_grow.
Qed.

Lemma fit_first_returns s p l Sf n_comp :
  nth_error (lists s) p = Some l ->
  l <> [] ->
  Forall (evaluated s) l ->
  1 <= n_comp ->
  returns (fit_tournament p Sf n_comp true) s
    (fun v s' =>
       exists q items,
         v = VList q /\
         nth_error (lists s') q = Some items /\
         (length (lists s) < q)%nat /\
         length items = Z.to_nat Sf /\
         Forall (fun r => In r l) items /\
         Sorted (fitness_le s) items /\
         untouched s s').
Proof.
  intros Hp Hl Hev Hn. unfold fit_tournament.
  now apply (shortlist_returns s p l p l).
Qed.

Lemma size_first_returns s p l Sp n_comp :
  nth_error (lists s) p = Some l ->
  l <> [] ->
  Forall (grown s) l ->
  Forall (evaluated s) l ->
  1 <= n_comp ->
  returns (size_tournament p Sp n_comp true) s
    (fun v s' =>
       exists q items,
         v = VList q /\
         nth_error (lists s') q = Some items /\
         (length (lists s) < q)%nat /\
         length items = Z.to_nat Sp /\
         Forall (fun r => In r l) items /\
         Sorted (fitness_le s) items /\
         untouched s s').
Proof.
  intros Hp Hl Hg Hev Hn. unfold size_tournament.
  destruct (sorted_by_size_run s p l Hp Hg) as (out & Hrun & Hperm & _).
  set (s1 := mkState (rng s) (lists s ++ [out]) (inds s)) in *.
  apply returns_bind. eapply returns_eq; [exact Hrun |].
  eapply returns_weaken.
  { apply (shortlist_returns s1 p l (length (lists s)) out Sp n_comp).
    - simpl. now apply nth_error_grow.
    - exact Hl.
    - apply nth_error_snoc.
    - now apply Permutation_length.
    - eapply Permutation_Forall; [symmetry; exact Hperm |].
      eapply Forall_impl; [| exact Hev]. intros r. now apply evaluated_same.
    - exact Hn. }
  intros v s' (q & items & Hv & Hq & Hfresh & Hlen & Hin & Hsorted & Hunt).
  exists q, items.
  split; [exact Hv |]. split; [exact Hq |].
  split; [simpl in Hfresh; rewrite length_app in Hfresh; simpl in Hfresh; lia |].
  split; [exact Hlen |].
  split.
  { rewrite Forall_forall in *. intros r Hr.
    eapply Permutation_in; [exact Hperm | now apply Hin]. }
  split; [exact Hsorted |].
  eapply untouched_trans; [| exact Hunt].
  split; [reflexivity |]. intros p' lp. simpl. apply nth_error_grow.
Qed.

(** *** Sampling without replacement *)

Lemma remove_nth_length {A} (j : nat) (l : list A) :
  (j < length l)%nat -> length (remove_nth j l) = (length l - 1)%nat.
Proof.
  intros H. unfold remove_nth.
  rewrite length_app, length_firstn, length_skipn. lia.
Qed.

Lemma remove_nth_incl {A} (j : nat) (l : list A) x :
  In x (remove_nth j l) -> In x l.
Proof.
  unfold remove_nth. intros H. apply in_app_or in H.
  rewrite <- (firstn_skipn j l). apply in_or_app.
  destruct H as [H | H]; [now left | right].
  rewrite <- (firstn_skipn 1 (skipn j l)), skipn_skipn. apply in_or_app.
  right. exact H.
Qed.

Lemma sample_loop_returns k : forall pool s,
  (k <= length pool)%nat ->
  returns (sample_loop k pool) s
    (fun res s' => length res = k /\ Forall (fun x => In x pool) res /\
                   same_store s s').
Proof.
  induction k as [| k IH]; intros pool s Hk; simpl.
  - apply returns_ret. repeat split; constructor.
  - destruct pool as [| x0 pool']; [simpl in Hk; lia |].
    set (pool := x0 :: pool') in *.
    assert (Hpos : 0 <= Z.of_nat (length pool) - 1) by (unfold pool; cbn [length]; lia).
    apply returns_bind. eapply returns_eq; [apply randint_run; exact Hpos |].
    set (j := 0 + entropy (rng s) (cursor (rng s)) mod (Z.of_nat (length pool) - 1 - 0 + 1)).
    assert (Hj : (Z.to_nat j < length pool)%nat).
    { unfold j.
      pose proof (Z.mod_pos_bound (entropy (rng s) (cursor (rng s)))
                    (Z.of_nat (length pool) - 1 - 0 + 1)). lia. }
    apply returns_bind.
    eapply returns_weaken.
    { apply (IH (remove_nth (Z.to_nat j) pool)).
      rewrite remove_nth_length by exact Hj. unfold pool in *.
      cbn [length] in *. lia. }
    intros rest s' (Hlen & Hall & Hs'). apply returns_ret.
    split; [simpl; now f_equal |].
    split.
    + constructor; [now apply nth_In |].
      eapply Forall_impl; [| exact Hall]. intros x. apply remove_nth_incl.
    + destruct Hs' as [Hl Hi]. split; [exact Hl | exact Hi].
Qed.

Lemma py_range_In N x : In x (py_range N) -> 0 <= x < N.
Proof.
  unfold py_range. intros H. apply in_map_iff in H.
  destruct H as (i & <- & Hi). apply in_seq in Hi. lia.
Qed.

Lemma py_range_length N : length (py_range N) = Z.to_nat N.
Proof. unfold py_range. now rewrite length_map, length_seq. Qed.

(** A second-stage draw: [k] distinct positions of a list of [n] items,
    and the least of them. *)
Lemma second_draw_returns {B} s (n : nat) (k : Z) (f : Z -> M B)
    (post : B -> State -> Prop) :
  1 <= k <= Z.of_nat n ->
  (forall m s', 0 <= m < Z.of_nat n -> same_store s s' ->
                returns (f m) s' post) ->
  returns (candidates <- sample (py_range (Z.of_nat n)) k ;;
           m <- py_min candidates ;; f m) s post.
Proof.
  intros Hk Hf. apply returns_bind. unfold sample.
  rewrite py_range_length, Nat2Z.id.
  destruct (Z.ltb_spec k 0); [lia |].
  destruct (Z.ltb_spec (Z.of_nat n) k); [lia |]. simpl.
  eapply returns_weaken.
  { apply sample_loop_returns. rewrite py_range_length. lia. }
  intros res s' (Hlen & Hall & Hs').
  assert (Hres : res <> []).
  { intros ->. simpl in Hlen. lia. }
  destruct (py_min_returns res s' Hres) as (m & Hmin & Hin & _).
  apply returns_bind. eapply returns_eq; [exact Hmin |].
  apply Hf; [| exact Hs'].
  rewrite Forall_forall in Hall. apply py_range_In, Hall, Hin.
Qed.

Lemma fit_second_returns s q items Sf n_comp :
  nth_error (lists s) q = Some items ->
  1 <= Sf <= Z.of_nat (length items) ->
  returns (fit_tournament q Sf n_comp false) s
    (fun v s' => exists r, v = VInd r /\ In r items /\ same_store s s').
Proof.
  intros Hq HSf. unfold fit_tournament.
  apply returns_bind. eapply returns_eq; [apply (len_run _ _ _ Hq) |].
  apply second_draw_returns; [exact HSf |].
  intros m s' Hm Hs'.
  destruct (getitem_run s' q items m) as (r & Hr & Hget);
    [destruct Hs' as [-> _]; exact Hq | exact Hm |].
  apply returns_bind. eapply returns_eq; [exact Hget |].
  apply returns_ret. exists r.
  split; [reflexivity |]. split; [eapply nth_error_In; exact Hr | exact Hs'].
Qed.

Lemma size_second_returns s q items Sp n_comp :
  nth_error (lists s) q = Some items ->
  Forall (grown s) items ->
  1 <= Sp <= Z.of_nat (length items) ->
  returns (size_tournament q Sp n_comp false) s
    (fun v s' => exists r, v = VInd r /\ In r items /\ untouched s s').
Proof.
  intros Hq Hg HSp. unfold size_tournament.
  destruct (sorted_by_size_run s q items Hq Hg) as (out & Hrun & Hperm & _).
  set (s1 := mkState (rng s) (lists s ++ [out]) (inds s)) in *.
  assert (Hq1 : nth_error (lists s1) q = Some items)
    by (simpl; now apply nth_error_grow).
  assert (Hunt : untouched s s1).
  { split; [reflexivity |]. intros p' lp. simpl. apply nth_error_grow. }
  apply returns_bind. eapply returns_eq; [exact Hrun |].
  apply returns_bind. eapply returns_eq; [apply (len_run _ _ _ Hq1) |].
  apply second_draw_returns; [exact HSp |].
  intros m s' Hm Hs'.
  destruct (getitem_run s' (length (lists s)) out m) as (r & Hr & Hget).
  { destruct Hs' as [-> _]. apply nth_error_snoc. }
  { rewrite (Permutation_length Hperm). exact Hm. }
  apply returns_bind. eapply returns_eq; [exact Hget |].
  apply returns_ret. exists r.
  split; [reflexivity |].
  split; [eapply Permutation_in; [exact Hperm | eapply nth_error_In; exact Hr] |].
  eapply untouched_trans; [exact Hunt |].
  destruct Hs' as [Hl Hi]. split; [exact Hi |]. intros p' lp. now rewrite Hl.
Qed.

(** *** Assertions are only failed by [assert] *)

Lemma never_asserts_ret {A} (a : A) : never_asserts (ret a).
Proof. intros s. discriminate. Qed.

Lemma never_asserts_raise {A} e :
  e <> AssertionError -> never_asserts (@raise A e).
Proof. intros He s. simpl. congruence. Qed.

Lemma never_asserts_bind {A B} (m : M A) (f : A -> M B) :
  never_asserts m -> (forall a, never_asserts (f a)) -> never_asserts (bind m f).
Proof.
  intros Hm Hf s. unfold bind.
  specialize (Hm s). destruct (m s) as [[a | e] s1]; simpl in Hm.
  - apply Hf.
  - simpl. intros [= ->]. now apply Hm.
Qed.

Lemma never_asserts_randint lo hi : never_asserts (randint lo hi).
Proof. intros s. unfold randint. destruct (lo <=? hi); discriminate. Qed.

Lemma never_asserts_contents p : never_asserts (contents p).
Proof.
  intros s. unfold contents. destruct (nth_error (lists s) p); discriminate.
Qed.

Lemma never_asserts_deref r : never_asserts (deref r).
Proof.
  intros s. unfold deref. destruct (nth_error (inds s) r); discriminate.
Qed.

Lemma never_asserts_new_list l : never_asserts (new_list l).
Proof. intros s. discriminate. Qed.

Create HintDb quiet.

#[local] Hint Resolve never_asserts_ret never_asserts_randint
  never_asserts_contents never_asserts_deref never_asserts_new_list : quiet.
#[local] Hint Extern 1 (never_asserts (raise _)) =>
  apply never_asserts_raise; discriminate : quiet.

Ltac quiets :=
  repeat first
    [ solve [auto with quiet]
    | progress cbv zeta
    | apply never_asserts_bind; [| intros ?]
    | match goal with
      | |- never_asserts (if ?b then _ else _) => destruct b
      | |- never_asserts (match ?x with _ => _ end) => destruct x
      end ].

Lemma never_asserts_replicateM {A} (body : M A) n :
  never_asserts body -> never_asserts (replicateM n body).
Proof. intros Hb. induction n; simpl; quiets. Qed.

Lemma never_asserts_mapM {A B} (f : A -> M B) l :
  (forall a, never_asserts (f a)) -> never_asserts (mapM f l).
Proof. intros Hf. induction l; simpl; quiets. Qed.

Lemma never_asserts_sample_loop k : forall pool, never_asserts (sample_loop k pool).
Proof. induction k; intros pool; simpl; quiets. Qed.

Lemma never_asserts_len p : never_asserts (len p).
Proof. unfold len. quiets. Qed.

Lemma never_asserts_getitem p i : never_asserts (getitem p i).
Proof. unfold getitem. quiets. Qed.

Lemma never_asserts_py_min l : never_asserts (py_min l).
Proof. unfold py_min. quiets. Qed.

Lemma never_asserts_as_list v : never_asserts (as_list v).
Proof. unfold as_list. quiets. Qed.

Lemma never_asserts_sample pool k : never_asserts (sample pool k).
Proof. unfold sample. pose proof never_asserts_sample_loop. quiets. Qed.

#[local] Hint Resolve never_asserts_len never_asserts_getitem
  never_asserts_py_min never_asserts_as_list never_asserts_sample : quiet.

Lemma never_asserts_draw_indices p n : never_asserts (draw_indices p n).
Proof.
  unfold draw_indices, comprehension. apply never_asserts_replicateM. quiets.
Qed.

Lemma never_asserts_sorted_by_fitness p : never_asserts (sorted_by_fitness p).
Proof.
  unfold sorted_by_fitness. quiets.
  apply never_asserts_mapM. intros r. unfold attr_fitness. quiets.
Qed.

Lemma never_asserts_sorted_by_size p : never_asserts (sorted_by_size p).
Proof.
  unfold sorted_by_size. quiets.
  apply never_asserts_mapM. intros r. unfold attr_size. quiets.
Qed.

#[local] Hint Resolve never_asserts_draw_indices
  never_asserts_sorted_by_fitness never_asserts_sorted_by_size : quiet.

Lemma never_asserts_fit_tournament p Sf n_comp first :
  never_asserts (fit_tournament p Sf n_comp first).
Proof.
  unfold fit_tournament, comprehension. quiets.
  apply never_asserts_replicateM. quiets.
Qed.

Lemma never_asserts_size_tournament p Sp n_comp first :
  never_asserts (size_tournament p Sp n_comp first).
Proof.
  unfold size_tournament, comprehension. quiets.
  apply never_asserts_replicateM. quiets.
Qed.

(** ** The double tournament *)

Lemma double_tournament_violated s p Sf Sp n_comp switch :
  dominance_violated Sf Sp switch ->
  double_tournament p Sf Sp n_comp switch s = (Err AssertionError, s).
Proof.
  unfold dominance_violated, double_tournament. intros H.
  destruct switch; apply bind_err; unfold py_assert.
  - destruct (Z.geb_spec Sp Sf); [lia | reflexivity].
  - destruct (Z.geb_spec Sf Sp); [lia | reflexivity].
Qed.

Lemma double_tournament_quiet s p Sf Sp n_comp switch :
  ~ dominance_violated Sf Sp switch ->
  fst (double_tournament p Sf Sp n_comp switch s) <> Err AssertionError.
Proof.
  unfold dominance_violated, double_tournament. intros H.
  destruct switch.
  - assert (E : py_assert (Sp >=? Sf) s = (Val tt, s)).
    { unfold py_assert. destruct (Z.geb_spec Sp Sf); [reflexivity | lia]. }
    rewrite (bind_val _ _ _ _ _ E).
    pose proof never_asserts_size_tournament.
    pose proof never_asserts_fit_tournament.
    revert s E. intros s _. generalize s.
    change (never_asserts
              (qualifiers <- size_tournament p Sp n_comp true ;;
               q <- as_list qualifiers ;; fit_tournament q Sf n_comp false)).
    quiets.
  - assert (E : py_assert (Sf >=? Sp) s = (Val tt, s)).
    { unfold py_assert. destruct (Z.geb_spec Sf Sp); [reflexivity | lia]. }
    rewrite (bind_val _ _ _ _ _ E).
    pose proof never_asserts_size_tournament.
    pose proof never_asserts_fit_tournament.
    revert s E. intros s _. generalize s.
    change (never_asserts
              (qualifiers <- fit_tournament p Sf n_comp true ;;
               q <- as_list qualifiers ;; size_tournament q Sp n_comp false)).
    quiets.
Qed.

Lemma double_tournament_returns s p l Sf Sp n_comp switch :
  nth_error (lists s) p = Some l ->
  l <> [] ->
  Forall (grown s) l ->
  Forall (evaluated s) l ->
  1 <= Sf -> 1 <= Sp -> 1 <= n_comp ->
  ~ dominance_violated Sf Sp switch ->
  returns (double_tournament p Sf Sp n_comp switch) s
    (fun v s' => exists r, v = VInd r /\ In r l /\ untouched s s').
Proof.
  intros Hp Hl Hg Hev HSf HSp Hn Hd.
  unfold dominance_violated, double_tournament in *.
  destruct switch.
  - assert (E : py_assert (Sp >=? Sf) s = (Val tt, s)).
    { unfold py_assert. destruct (Z.geb_spec Sp Sf); [reflexivity | lia]. }
    apply returns_bind. eapply returns_eq; [exact E |].
    apply returns_bind.
    eapply returns_weaken;
      [apply (size_first_returns s p l Sp n_comp); assumption |].
    intros v s1 (q & items & -> & Hq & _ & Hlen & Hin & _ & Hunt).
    apply returns_bind. apply returns_ret.
    eapply returns_weaken.
    { apply (fit_second_returns s1 q items Sf n_comp Hq). lia. }
    intros v s2 (r & -> & Hr & Hs2). exists r.
    split; [reflexivity |].
    split; [rewrite Forall_forall in Hin; now apply Hin |].
    eapply untouched_trans; [exact Hunt |].
    destruct Hs2 as [Hl2 Hi2]. split; [exact Hi2 |].
    intros p' lp. now rewrite Hl2.
  - assert (E : py_assert (Sf >=? Sp) s = (Val tt, s)).
    { unfold py_assert. destruct (Z.geb_spec Sf Sp); [reflexivity | lia]. }
    apply returns_bind. eapply returns_eq; [exact E |].
    apply returns_bind.
    eapply returns_weaken;
      [apply (fit_first_returns s p l Sf n_comp); assumption |].
    intros v s1 (q & items & -> & Hq & _ & Hlen & Hin & _ & Hunt).
    apply returns_bind. apply returns_ret.
    eapply returns_weaken.
    { apply (size_second_returns s1 q items Sp n_comp Hq); [| lia].
      apply (Forall_sub _ l); [| exact Hin].
      eapply Forall_impl; [| exact Hg].
      intros r. apply grown_same. apply Hunt. }
    intros v s2 (r & -> & Hr & Hs2). exists r.
    split; [reflexivity |].
    split; [rewrite Forall_forall in Hin; now apply Hin |].
    eapply untouched_trans; [exact Hunt | exact Hs2].
Qed.

(** C1: on a non-empty population and for [Sf], [Sp], [n_comp] at least 1,
    [double_tournament] fails its assertion exactly when the dominance
    constraint is broken ([Sp < Sf] under [switch], [Sf < Sp] otherwise);
    it then fails at once, the state, random source included, being the
    one it was called in.  When the constraint holds and the Individuals
    have a tree and a fitness, it returns one of them. *)
Theorem double_tournament_dominance :
  forall (s : State) (p : loc) (l : list ref) (Sf Sp n_comp : Z) (switch : bool),
    nth_error (lists s) p = Some l ->
    l <> [] ->
    1 <= Sf -> 1 <= Sp -> 1 <= n_comp ->
    (fst (double_tournament p Sf Sp n_comp switch s) = Err AssertionError <->
     dominance_violated Sf Sp switch) /\
    (dominance_violated Sf Sp switch ->
     double_tournament p Sf Sp n_comp switch s = (Err AssertionError, s)) /\
    (~ dominance_violated Sf Sp switch ->
     Forall (grown s) l -> Forall (evaluated s) l ->
     exists r s',
       double_tournament p Sf Sp n_comp switch s = (Val (VInd r), s') /\
       In r l).
Proof.
  intros s p l Sf Sp n_comp switch Hp Hl HSf HSp Hn.
  assert (Hdec : dominance_violated Sf Sp switch \/
                 ~ dominance_violated Sf Sp switch).
  { unfold dominance_violated. destruct switch; lia. }
  split; [| split].
  - split.
    + intros Herr. destruct Hdec as [Hd | Hd]; [exact Hd |].
      exfalso. exact (double_tournament_quiet s p Sf Sp n_comp switch Hd Herr).
    + intros Hd. now rewrite double_tournament_violated.
  - apply double_tournament_violated.
  - intros Hd Hg Hev.
    destruct (double_tournament_returns s p l Sf Sp n_comp switch
                Hp Hl Hg Hev HSf HSp Hn Hd) as (v & s' & Hrun & r & -> & Hr & _).
    exists r, s'. split; assumption.
Qed.

Lemma double_tournament_dominance_witness :
  fst (double_tournament 0%nat 1 2 1 false (sample_state [0; 1; 0])) =
    Err AssertionError /\
  exists r, fst (double_tournament 0%nat 2 1 1 false (sample_state [0; 1; 0])) =
              Val (VInd r).
Proof.
  split.
  - destruct (double_tournament_dominance (sample_state [0; 1; 0]) 0%nat
                [0%nat; 1%nat] 1 2 1 false) as ([_ Hraise] & _ & _);
      [reflexivity | discriminate | lia .. |].
    apply Hraise. simpl. lia.
  - destruct (double_tournament_dominance (sample_state [0; 1; 0]) 0%nat
                [0%nat; 1%nat] 2 1 1 false) as (_ & _ & Hret);
      [reflexivity | discriminate | lia .. |].
    destruct Hret as (r & s' & Hrun & _).
    + simpl. lia.
    + repeat constructor; eexists; reflexivity.
    + repeat constructor; eexists; reflexivity.
    + exists r. now rewrite Hrun.
Defined.

(** C6, the claim as stated fails: of two Individuals, the fitter with
    three nodes and the other with one, drawn in that order, the shortlist
    of the fitness pass lists the larger first. *)
Lemma fitness_shortlist_not_by_size :
  ~ (forall (s : State) (p : loc) (l : list ref) (Sf n_comp : Z)
            (q : loc) (items : list ref) (s' : State),
        nth_error (lists s) p = Some l ->
        l <> [] ->
        Forall (grown s) l -> Forall (evaluated s) l ->
        1 <= Sf -> 1 <= n_comp ->
        fit_tournament p Sf n_comp true s = (Val (VList q), s') ->
        nth_error (lists s') q = Some items ->
        Sorted (size_le s') items).
Proof.
  intros H.
  specialize (H (sample_state [0; 1]) 0%nat [0%nat; 1%nat] 2 1 2%nat
                [0%nat; 1%nat]
                (snd (fit_tournament 0%nat 2 1 true (sample_state [0; 1])))).
  assert (Hs : Sorted
                 (size_le (snd (fit_tournament 0%nat 2 1 true
                                  (sample_state [0; 1]))))
                 [0%nat; 1%nat]).
  { apply H; try reflexivity; try lia; try discriminate;
      repeat constructor; eexists; reflexivity. }
  inversion Hs as [| ? ? _ Hhd]; subst.
  inversion Hhd as [| ? ? Hle]; subst.
  vm_compute in Hle. apply Hle. reflexivity.
Qed.

(** C6, amended: the shortlist of [Sf] winners that the fitness pass hands
    on is sorted ascending by fitness; the size stage then sorts it by
    size into a list of its own and leaves the shortlist as it is. *)
Theorem fitness_shortlist_by_fitness :
  forall (s : State) (p : loc) (l : list ref) (Sf n_comp : Z),
    nth_error (lists s) p = Some l ->
    l <> [] ->
    Forall (grown s) l -> Forall (evaluated s) l ->
    1 <= Sf -> 1 <= n_comp ->
    exists q items s',
      fit_tournament p Sf n_comp true s = (Val (VList q), s') /\
      nth_error (lists s') q = Some items /\
      length items = Z.to_nat Sf /\
      Forall (fun r => In r l) items /\
      Sorted (fitness_le s') items /\
      exists q2 by_size s'',
        sorted_by_size q s' = (Val q2, s'') /\
        q2 <> q /\
        nth_error (lists s'') q2 = Some by_size /\
        Permutation by_size items /\
        Sorted (size_le s'') by_size /\
        nth_error (lists s'') q = Some items.
Proof.
  intros s p l Sf n_comp Hp Hl Hg Hev HSf Hn.
  destruct (fit_first_returns s p l Sf n_comp Hp Hl Hev Hn)
    as (v & s' & Hrun & q & items & -> & Hq & _ & Hlen & Hin & Hsorted & Hunt).
  exists q, items, s'.
  split; [exact Hrun |]. split; [exact Hq |]. split; [exact Hlen |].
  split; [exact Hin |].
  assert (Hi : inds s' = inds s) by apply Hunt.
  split.
  { unfold fitness_le, fitness_of in *. now rewrite Hi. }
  destruct (sorted_by_size_run s' q items Hq) as (out & Hrun2 & Hperm & Hs2).
  { apply (Forall_sub _ l); [| exact Hin].
    eapply Forall_impl; [| exact Hg]. intros r. now apply grown_same. }
  eexists _, out, _. split; [exact Hrun2 |].
  split.
  { assert (q < length (lists s'))%nat by (apply nth_error_Some; congruence).
    lia. }
  split; [apply nth_error_snoc |].
  split; [exact Hperm |].
  split; [exact Hs2 |].
  simpl. now apply nth_error_grow.
Qed.

Lemma fitness_shortlist_by_fitness_witness :
  exists q items s',
    fit_tournament 0%nat 2 1 true (sample_state [0; 1]) = (Val (VList q), s') /\
    nth_error (lists s') q = Some items /\
    Sorted (fitness_le s') items.
Proof.
  destruct (fitness_shortlist_by_fitness (sample_state [0; 1]) 0%nat
              [0%nat; 1%nat] 2 1)
    as (q & items & s' & Hrun & Hq & _ & _ & Hsorted & _).
  - reflexivity.
  - discriminate.
  - repeat constructor; eexists; reflexivity.
  - repeat constructor; eexists; reflexivity.
  - lia.
  - lia.
  - exists q, items, s'. repeat split; assumption.
Defined.

(** ** Crossover *)

Lemma nsize_pos n : (1 <= nsize n)%nat.
Proof. destruct n. simpl. lia. Qed.

Lemma deref_run s r i :
  nth_error (inds s) r = Some i -> deref r s = (Val i, s).
Proof. intros H. unfold deref. now rewrite H. Qed.

Lemma getHead_run s r i h :
  nth_error (inds s) r = Some i -> head i = Some h ->
  getHead r s = (Val h, s).
Proof.
  intros Hr Hh. unfold getHead.
  rewrite (bind_val _ _ _ _ _ (deref_run _ _ _ Hr)), Hh. reflexivity.
Qed.

Lemma getRandomNode_run s h :
  getRandomNode h s =
    (Val (Z.to_nat (entropy (rng s) (cursor (rng s)) mod Z.of_nat (nsize h))),
     with_rng s (advance 1 (rng s))).
Proof.
  unfold getRandomNode. pose proof (nsize_pos h).
  rewrite (bind_val _ _ _ _ _
             (randint_run s 0 (Z.of_nat (nsize h) - 1) ltac:(lia))).
  unfold ret. do 3 f_equal.
  replace (Z.of_nat (nsize h) - 1 - 0 + 1) with (Z.of_nat (nsize h)) by lia.
  lia.
Qed.

Lemma copy_run s I x h :
  inds s = I ++ [x] ->
  copy (length I) h s =
    (Val tt,
     mkState (rng s) (lists s)
       (I ++ [mkIndividual (operators x) (terminals x) (max_depth x)
                (model_name x) (fitnessType x) (Some h) (fitness x)])).
Proof.
  intros E. unfold copy. rewrite E, nth_error_snoc, update_snoc. reflexivity.
Qed.

(** One turn of the loop that wraps a tree into a new Individual. *)
Lemma wrap_offspring_run s L acc parent i1 h :
  lists s = L ++ [acc] ->
  nth_error (inds s) parent = Some i1 ->
  (p <- deref parent ;;
   i <- new_Individual (operators p) (terminals p) (max_depth p)
          (model_name p) (fitnessType p) ;;
   copy i h ;;;
   append (length L) i) s =
    (Val tt,
     mkState (rng s) (L ++ [acc ++ [length (inds s)]])
       (inds s ++ [offspring_of i1 h])).
Proof.
  intros Hl Hp.
  rewrite (bind_val _ _ _ _ _ (deref_run _ _ _ Hp)).
  set (s1 := mkState (rng s) (lists s)
               (inds s ++ [mkIndividual (operators i1) (terminals i1)
                             (max_depth i1) (model_name i1) (fitnessType i1)
                             None None])).
  assert (H1 : new_Individual (operators i1) (terminals i1) (max_depth i1)
                 (model_name i1) (fitnessType i1) s =
               (Val (length (inds s)), s1)) by reflexivity.
  rewrite (bind_val _ _ _ _ _ H1).
  rewrite (bind_val _ _ _ _ _ (copy_run s1 (inds s) _ h eq_refl)).
  cbn [operators terminals max_depth model_name fitnessType fitness rng lists s1].
  match goal with
  | |- append _ _ ?st = _ => rewrite (append_run st L acc (length (inds s)) Hl)
  end.
  reflexivity.
Qed.

Lemma STXO_run s p ts double Sf Sp Switch ind1 ind2 s1 s2 i1 i2 h1 h2 :
  select_parent p ts double Sf Sp Switch s = (Val ind1, s1) ->
  select_parent p ts double Sf Sp Switch s1 = (Val ind2, s2) ->
  nth_error (inds s2) ind1 = Some i1 -> head i1 = Some h1 ->
  nth_error (inds s2) ind2 = Some i2 -> head i2 = Some h2 ->
  let g := rng s2 in
  let n1 := Z.to_nat (entropy g (cursor g) mod Z.of_nat (nsize h1)) in
  let n2 := Z.to_nat (entropy g (cursor g + 1) mod Z.of_nat (nsize h2)) in
  let hs := swap h1 n1 h2 n2 in
  STXO p ts double Sf Sp Switch s =
    (Val (length (lists s2)),
     mkState (advance 2 g)
       (lists s2 ++ [[length (inds s2); S (length (inds s2))]])
       (inds s2 ++ [offspring_of i1 (fst hs); offspring_of i1 (snd hs)])).
Proof.
  intros Hsel1 Hsel2 Hi1 Hh1 Hi2 Hh2 g n1 n2 hs.
  unfold STXO. fold (select_parent p ts double Sf Sp Switch).
  rewrite (bind_val _ _ _ _ _ Hsel1), (bind_val _ _ _ _ _ Hsel2).
  rewrite (bind_val _ _ _ _ _ (getHead_run _ _ _ _ Hi1 Hh1)).
  rewrite (bind_val _ _ _ _ _ (getHead_run _ _ _ _ Hi2 Hh2)).
  rewrite (bind_val _ _ _ _ _ (getRandomNode_run s2 h1)).
  rewrite (bind_val _ _ _ _ _ (getRandomNode_run _ h2)).
  cbn [rng with_rng advance entropy cursor]. fold g.
  replace (Z.to_nat (entropy g (cursor g) mod Z.of_nat (nsize h1))) with n1
    by reflexivity.
  replace (Z.to_nat (entropy g (cursor g + 1) mod Z.of_nat (nsize h2))) with n2
    by reflexivity.
  cbv zeta. fold hs.
  set (s4 := mkState (mkRng (entropy g) (cursor g + 1 + 1)) (lists s2) (inds s2)).
  set (s5 := mkState (rng s4) (lists s2 ++ [[]]) (inds s2)).
  assert (H5 : new_list [] s4 = (Val (length (lists s2)), s5)) by reflexivity.
  rewrite (bind_val _ _ _ _ _ H5).
  assert (Hloop1 := wrap_offspring_run s5 (lists s2) [] ind1 i1 (fst hs)
                      eq_refl Hi1).
  set (s6 := mkState (rng s5) (lists s2 ++ [[] ++ [length (inds s5)]])
               (inds s5 ++ [offspring_of i1 (fst hs)])) in *.
  assert (Hloop2 := wrap_offspring_run s6 (lists s2) ([] ++ [length (inds s5)])
                      ind1 i1 (snd hs) eq_refl
                      (nth_error_grow _ _ _ _ Hi1)).
  match goal with
  | |- bind (forM_ ?l ?f) _ _ = _ =>
      assert (Hfor : forM_ l f s5 = (Val tt, snd (f (snd hs) s6)))
  end.
  { cbn [forM_].
    rewrite (bind_val _ _ _ _ _ Hloop1), (bind_val _ _ _ _ _ Hloop2).
    rewrite Hloop2. reflexivity. }
  rewrite (bind_val _ _ _ _ _ Hfor), Hloop2.
  unfold ret. cbn [snd rng lists inds s6 s5 s4 app length].
  unfold advance. rewrite <- !app_assoc, length_app. cbn [app length].
  replace (cursor g + 1 + 1)%nat with (cursor g + 2)%nat by lia.
  replace (length (inds s2) + 1)%nat with (S (length (inds s2))) by lia.
  reflexivity.
Qed.

(** C5, the claim as stated fails: with parents of different
    configurations, the first drawn at rank 0 and the second at rank 1, the
    second offspring carries the configuration of the first parent. *)
Lemma STXO_second_offspring_not_from_second_parent :
  ~ (forall (s : State) (p : loc) (ts : Z) (double : bool) (Sf Sp : Z)
            (Switch : bool) (ind1 ind2 : ref) (s1 s2 : State)
            (i1 i2 : Individual) (q : loc) (s' : State) (c1 c2 : ref)
            (o1 o2 : Individual),
        select_parent p ts double Sf Sp Switch s = (Val ind1, s1) ->
        select_parent p ts double Sf Sp Switch s1 = (Val ind2, s2) ->
        nth_error (inds s2) ind1 = Some i1 ->
        nth_error (inds s2) ind2 = Some i2 ->
        STXO p ts double Sf Sp Switch s = (Val q, s') ->
        nth_error (lists s') q = Some [c1; c2] ->
        nth_error (inds s') c1 = Some o1 ->
        nth_error (inds s') c2 = Some o2 ->
        configuration o1 = configuration i1 /\
        configuration o2 = configuration i2).
Proof.
  intros H.
  set (s := sample_state [0; 1; 0; 0]).
  set (s1 := snd (select_parent 0%nat 1 false 1 1 false s)).
  set (s2 := snd (select_parent 0%nat 1 false 1 1 false s1)).
  destruct (H s 0%nat 1 false 1 1 false 0%nat 1%nat s1 s2
              sample_plus sample_leaf 1%nat
              (snd (STXO 0%nat 1 false 1 1 false s)) 2%nat 3%nat
              (offspring_of sample_plus (leaf "z"))
              (offspring_of sample_plus (mkNode "+" [leaf "x"; leaf "y"])))
    as [_ Hcfg]; try reflexivity.
  vm_compute in Hcfg. discriminate Hcfg.
Qed.

(** C5, amended: both Individuals that STXO returns are new objects that
    carry the configuration of [ind1], the first selected parent; the
    second one carries that of [ind2] when the two parents agree on it.
    The parents are left as they were. *)
Theorem STXO_offspring_configuration :
  forall (s : State) (p : loc) (ts : Z) (double : bool) (Sf Sp : Z)
         (Switch : bool) (ind1 ind2 : ref) (s1 s2 : State)
         (i1 i2 : Individual) (h1 h2 : Node),
    select_parent p ts double Sf Sp Switch s = (Val ind1, s1) ->
    select_parent p ts double Sf Sp Switch s1 = (Val ind2, s2) ->
    nth_error (inds s2) ind1 = Some i1 -> head i1 = Some h1 ->
    nth_error (inds s2) ind2 = Some i2 -> head i2 = Some h2 ->
    exists q s' c1 c2 o1 o2,
      STXO p ts double Sf Sp Switch s = (Val q, s') /\
      nth_error (lists s') q = Some [c1; c2] /\
      nth_error (inds s') c1 = Some o1 /\
      nth_error (inds s') c2 = Some o2 /\
      configuration o1 = configuration i1 /\
      configuration o2 = configuration i1 /\
      (configuration i2 = configuration i1 ->
       configuration o2 = configuration i2) /\
      c1 <> c2 /\ (length (inds s2) <= c1)%nat /\ (length (inds s2) <= c2)%nat /\
      nth_error (inds s') ind1 = Some i1 /\
      nth_error (inds s') ind2 = Some i2.
Proof.
  intros s p ts double Sf Sp Switch ind1 ind2 s1 s2 i1 i2 h1 h2
         Hsel1 Hsel2 Hi1 Hh1 Hi2 Hh2.
  pose proof (STXO_run s p ts double Sf Sp Switch ind1 ind2 s1 s2 i1 i2 h1 h2
                Hsel1 Hsel2 Hi1 Hh1 Hi2 Hh2) as Hrun.
  cbv zeta in Hrun.
  eexists _, _, (length (inds s2)), (S (length (inds s2))), _, _.
  split; [exact Hrun |]. cbn [lists inds].
  split; [apply nth_error_snoc |].
  split.
  { rewrite nth_error_app2 by lia. rewrite Nat.sub_diag. reflexivity. }
  split.
  { rewrite nth_error_app2 by lia.
    replace (S (length (inds s2)) - length (inds s2))%nat with 1%nat by lia.
    reflexivity. }
  split; [reflexivity |]. split; [reflexivity |].
  split; [intros E; now rewrite E |].
  split; [lia |]. split; [lia |]. split; [lia |].
  split; now apply nth_error_grow.
Qed.

Lemma STXO_offspring_configuration_witness :
  exists q s' c1 c2 o1 o2,
    STXO 0%nat 1 false 1 1 false (sample_state [0; 1; 0; 0]) = (Val q, s') /\
    nth_error (lists s') q = Some [c1; c2] /\
    nth_error (inds s') c1 = Some o1 /\
    nth_error (inds s') c2 = Some o2 /\
    configuration o1 = configuration sample_plus /\
    configuration o2 = configuration sample_plus.
Proof.
  destruct (STXO_offspring_configuration (sample_state [0; 1; 0; 0]) 0%nat 1
              false 1 1 false 0%nat 1%nat
              (snd (select_parent 0%nat 1 false 1 1 false
                      (sample_state [0; 1; 0; 0])))
              (snd (select_parent 0%nat 1 false 1 1 false
                      (snd (select_parent 0%nat 1 false 1 1 false
                              (sample_state [0; 1; 0; 0])))))
              sample_plus sample_leaf
              (mkNode "+" [leaf "x"; leaf "y"]) (leaf "z"))
    as (q & s' & c1 & c2 & o1 & o2 & Hrun & Hq & H1 & H2 & Hc1 & Hc2 & _);
    try reflexivity.
  exists q, s', c1, c2, o1, o2. repeat split; assumption.
Defined.

(** ** Offspring generation *)

(** On the crossover side of the coin [getOffspring] is STXO and nothing
    more: two Individuals come back whatever the depth of their trees. *)
Lemma getOffspring_crossover_run s p ts double Sf Sp Switch :
  entropy (rng s) (cursor (rng s)) mod 2 ^ 53 < 2 ^ 52 ->
  getOffspring p ts double Sf Sp Switch s =
    STXO p ts double Sf Sp Switch (with_rng s (advance 1 (rng s))).
Proof.
  intros Hcoin. unfold getOffspring.
  assert (Hr : random s =
               (Val (Qmake (entropy (rng s) (cursor (rng s)) mod 2 ^ 53) (2 ^ 53)),
                with_rng s (advance 1 (rng s)))) by reflexivity.
  rewrite (bind_val _ _ _ _ _ Hr). cbv zeta.
  assert (E : Qlt_bool
                (Qmake (entropy (rng s) (cursor (rng s)) mod 2 ^ 53) (2 ^ 53))
                (1 # 2) = true).
  { unfold Qlt_bool. apply negb_true_iff.
    destruct (Qle_bool (1 # 2)
                (Qmake (entropy (rng s) (cursor (rng s)) mod 2 ^ 53) (2 ^ 53)))
      eqn:Hle; [| reflexivity].
    apply Qle_bool_iff in Hle. unfold Qle in Hle. simpl in Hle. lia. }
  now rewrite E.
Qed.

Lemma getOffspring_crossover_two s p ts double Sf Sp Switch
    ind1 ind2 s1 s2 i1 i2 h1 h2 :
  entropy (rng s) (cursor (rng s)) mod 2 ^ 53 < 2 ^ 52 ->
  select_parent p ts double Sf Sp Switch (with_rng s (advance 1 (rng s))) =
    (Val ind1, s1) ->
  select_parent p ts double Sf Sp Switch s1 = (Val ind2, s2) ->
  nth_error (inds s2) ind1 = Some i1 -> head i1 = Some h1 ->
  nth_error (inds s2) ind2 = Some i2 -> head i2 = Some h2 ->
  exists q s' c1 c2,
    getOffspring p ts double Sf Sp Switch s = (Val q, s') /\
    nth_error (lists s') q = Some [c1; c2].
Proof.
  intros Hcoin Hsel1 Hsel2 Hi1 Hh1 Hi2 Hh2.
  rewrite (getOffspring_crossover_run _ _ _ _ _ _ _ Hcoin).
  pose proof (STXO_run _ p ts double Sf Sp Switch ind1 ind2 s1 s2 i1 i2 h1 h2
                Hsel1 Hsel2 Hi1 Hh1 Hi2 Hh2) as Hrun.
  cbv zeta in Hrun.
  eexists _, _, _, _. split; [exact Hrun |]. apply nth_error_snoc.
Qed.

(** C2, the code against the claim: a crossover of the three-node
    Individual (maximum depth 2) with itself, the root of one copy swapped
    with a leaf of the other, yields a tree of depth 3.  [getOffspring]
    returns it with its sibling: nothing is discarded, although
    [discardDeep] at limit 2 would keep the sibling only. *)
Theorem getOffspring_keeps_deep_offspring :
  exists q s' c1 c2 o2,
    getOffspring 0%nat 1 false 1 1 false (sample_state [0; 0; 0; 0; 1]) =
      (Val q, s') /\
    nth_error (lists s') q = Some [c1; c2] /\
    nth_error (inds s') c2 = Some o2 /\
    max_depth o2 = 2 /\
    ind_depth o2 = Some 3 /\
    exists q' s'',
      discardDeep q 2 s' = (Val q', s'') /\
      nth_error (lists s'') q' = Some [c1].
Proof.
  eexists _, _, _, _, _.
  split; [vm_compute; reflexivity |].
  split; [reflexivity |].
  split; [reflexivity |].
  split; [reflexivity |].
  split; [reflexivity |].
  eexists _, _. split; [vm_compute; reflexivity | reflexivity].
Qed.

(** * Further properties of the operators *)

(** ** Tournament selection: when it returns, and what *)

Lemma tournament_small_n s p n :
  n < 1 -> tournament p n s = (Err ValueError, s).
Proof.
  intros Hn. unfold tournament, draw_indices, comprehension.
  replace (Z.to_nat n) with 0%nat by lia. reflexivity.
Qed.

Lemma draw_indices_empty s p n :
  nth_error (lists s) p = Some [] ->
  1 <= n ->
  draw_indices p n s = (Err ValueError, s).
Proof.
  intros Hp Hn. unfold draw_indices, comprehension.
  destruct (Z.to_nat n) as [| k] eqn:E; [lia |].
  cbn [replicateM]. apply bind_err.
  now rewrite (bind_val _ _ _ _ _ (len_run _ _ _ Hp)).
Qed.

(** X1: [tournament] returns an Individual exactly when the population is
    not empty and [n >= 1]; otherwise it raises ValueError ([min] of no
    draw, or [randint(0, -1)]) and the state, random source included, is
    the one it was called in. *)
Theorem tournament_value_iff :
  forall (s : State) (p : loc) (l : list ref) (n : Z),
    nth_error (lists s) p = Some l ->
    ((exists r, fst (tournament p n s) = Val r) <-> (l <> [] /\ 1 <= n)) /\
    (l = [] \/ n < 1 -> tournament p n s = (Err ValueError, s)).
Proof.
  intros s p l n Hp.
  assert (Herr : l = [] \/ n < 1 -> tournament p n s = (Err ValueError, s)).
  { intros [-> | Hn]; [| now apply tournament_small_n].
    destruct (Z.lt_ge_cases n 1) as [Hn | Hn]; [now apply tournament_small_n |].
    unfold tournament. apply bind_err. now apply draw_indices_empty. }
  split; [| exact Herr].
  split.
  - intros [r Hr].
    destruct l as [| x l'].
    + rewrite Herr in Hr by now left. discriminate.
    + split; [discriminate |].
      destruct (Z.lt_ge_cases n 1) as [Hn | Hn]; [| exact Hn].
      rewrite Herr in Hr by now right. discriminate.
  - intros [Hl Hn].
    destruct (tournament_run s p l n Hp Hl Hn) as (m & r & _ & _ & _ & Hrun).
    exists r. now rewrite Hrun.
Qed.

Lemma tournament_value_iff_witness :
  tournament 0%nat 0 (sample_state [1; 0]) =
    (Err ValueError, sample_state [1; 0]).
Proof.
  apply (proj2 (tournament_value_iff (sample_state [1; 0]) 0%nat
                  [0%nat; 1%nat] 0 eq_refl)).
  right. lia.
Defined.

(** *** Sorted lists, by position *)

Section SortedByPosition.
Context {A : Type} (R : A -> A -> Prop).
Hypothesis R_trans : forall a b c, R a b -> R b c -> R a c.

Lemma sorted_strongly (l : list A) : Sorted R l -> StronglySorted R l.
Proof.
  induction 1 as [| a l Hs IH Hhd]; constructor; [exact IH |].
  destruct Hhd as [| b l' Hab]; [constructor |].
  inversion IH as [| ? ? _ Hall]; subst.
  constructor; [exact Hab |].
  eapply Forall_impl; [| exact Hall]. intros c. now apply R_trans.
Qed.

Lemma sorted_positions (l : list A) :
  Sorted R l ->
  forall i j a b,
    (i < j)%nat -> nth_error l i = Some a -> nth_error l j = Some b -> R a b.
Proof.
  intros Hs. apply sorted_strongly in Hs.
  induction Hs as [| x l Hs IH Hall]; intros i j a b Hij Ha Hb.
  - destruct i; discriminate.
  - destruct j as [| j]; [lia |]. simpl in Hb.
    destruct i as [| i]; simpl in Ha.
    + injection Ha as <-. rewrite Forall_forall in Hall.
      apply Hall. eapply nth_error_In. exact Hb.
    + apply (IH i j); [lia | assumption | assumption].
Qed.
End SortedByPosition.

Lemma by_key_trans {K} (key : ref -> option K) (le : K -> K -> Prop) :
  (forall x y z, le x y -> le y z -> le x z) ->
  forall a b c, by_key key le a b -> by_key key le b c -> by_key key le a c.
Proof.
  intros Htrans a b c. unfold by_key.
  destruct (key a), (key b), (key c); try tauto. apply Htrans.
Qed.

Lemma fitness_le_trans s a b c :
  fitness_le s a b -> fitness_le s b c -> fitness_le s a c.
Proof. apply by_key_trans. intros x y z. apply Qle_trans. Qed.

Lemma size_le_trans s a b c :
  size_le s a b -> size_le s b c -> size_le s a c.
Proof. apply by_key_trans. intros x y z. apply Z.le_trans. Qed.

Lemma fitness_le_refl s r : evaluated s r -> fitness_le s r r.
Proof.
  intros [q Hq]. unfold fitness_le, by_key. rewrite Hq. apply Qle_refl.
Qed.

Lemma size_le_refl s r : grown s r -> size_le s r r.
Proof.
  intros [n Hn]. unfold size_le, by_key. rewrite Hn. apply Z.le_refl.
Qed.

(** X2: on a population sorted best first by fitness, [tournament] returns
    the fittest of the competitors it drew: its fitness is at most that of
    the Individual at each drawn index. *)
Theorem tournament_fittest_of_drawn :
  forall (s : State) (p : loc) (l : list ref) (n : Z),
    nth_error (lists s) p = Some l ->
    l <> [] ->
    1 <= n ->
    Forall (evaluated s) l ->
    Sorted (fitness_le s) l ->
    exists r s',
      tournament p n s = (Val r, s') /\
      In r l /\
      forall c, In c (draws (rng s) (Z.of_nat (length l)) (Z.to_nat n)) ->
                exists rc, nth_error l (Z.to_nat c) = Some rc /\
                           fitness_le s r rc.
Proof.
  intros s p l n Hp Hl Hn Hev Hsorted.
  destruct (tournament_run s p l n Hp Hl Hn)
    as (m & r & Hin & Hle & Hr & Hrun).
  exists r, (with_rng s (advance (Z.to_nat n) (rng s))).
  split; [exact Hrun |].
  split; [eapply nth_error_In; exact Hr |].
  intros c Hc.
  pose proof (draws_range (rng s) _ (Z.to_nat n) (nonempty_length l Hl)) as R.
  rewrite Forall_forall in R, Hle.
  pose proof (R c Hc) as Hcr. pose proof (R m Hin) as Hmr.
  pose proof (Hle c Hc) as Hmc.
  destruct (nth_error l (Z.to_nat c)) as [rc |] eqn:Erc;
    [| apply nth_error_None in Erc; lia].
  exists rc. split; [reflexivity |].
  destruct (Z.eq_dec m c) as [-> | Hne].
  - assert (rc = r) by congruence. subst rc.
    apply fitness_le_refl. rewrite Forall_forall in Hev.
    apply Hev. eapply nth_error_In. exact Hr.
  - apply (sorted_positions (fitness_le s) (fitness_le_trans s) l Hsorted
             (Z.to_nat m) (Z.to_nat c)); [lia | exact Hr | exact Erc].
Qed.

Lemma tournament_fittest_of_drawn_witness :
  exists r s',
    tournament 0%nat 2 (sample_state [1; 0]) = (Val r, s') /\
    In r [0%nat; 1%nat].
Proof.
  destruct (tournament_fittest_of_drawn (sample_state [1; 0]) 0%nat
              [0%nat; 1%nat] 2) as (r & s' & Hrun & Hin & _).
  - reflexivity.
  - discriminate.
  - lia.
  - repeat constructor; eexists; reflexivity.
  - repeat constructor. vm_compute. discriminate.
  - exists r, s'. split; assumption.
Defined.

(** ** The second stage: sampling without replacement *)

Lemma remove_nth_perm {A} (d : A) : forall (j : nat) (l : list A),
  (j < length l)%nat -> Permutation (nth j l d :: remove_nth j l) l.
Proof.
  induction j as [| j IH]; intros [| a l] Hj; simpl in Hj; try lia.
  - reflexivity.
  - change (remove_nth (S j) (a :: l)) with (a :: remove_nth j l).
    cbn [nth]. rewrite perm_swap. constructor. apply IH. lia.
Qed.

(** Sampling as many values as the pool holds gives the pool, reordered. *)
Lemma sample_loop_all k : forall pool s,
  k = length pool ->
  returns (sample_loop k pool) s
    (fun res s' => Permutation res pool /\ same_store s s').
Proof.
  induction k as [| k IH]; intros pool s Hk; simpl.
  - destruct pool; [| discriminate]. apply returns_ret. split; [constructor | apply same_store_refl].
  - destruct pool as [| x0 pool']; [discriminate |].
    set (pool := x0 :: pool') in *.
    assert (Hpos : 0 <= Z.of_nat (length pool) - 1) by (unfold pool; cbn [length]; lia).
    apply returns_bind. eapply returns_eq; [apply randint_run; exact Hpos |].
    set (j := 0 + entropy (rng s) (cursor (rng s)) mod (Z.of_nat (length pool) - 1 - 0 + 1)).
    assert (Hj : (Z.to_nat j < length pool)%nat).
    { unfold j.
      pose proof (Z.mod_pos_bound (entropy (rng s) (cursor (rng s)))
                    (Z.of_nat (length pool) - 1 - 0 + 1)). lia. }
    apply returns_bind.
    eapply returns_weaken.
    { apply (IH (remove_nth (Z.to_nat j) pool)).
      rewrite remove_nth_length by exact Hj. unfold pool in *.
      cbn [length] in *. lia. }
    intros rest s' (Hperm & Hl & Hi). apply returns_ret.
    split; [| split; [exact Hl | exact Hi]].
    rewrite Hperm. now apply remove_nth_perm.
Qed.

Lemma second_draw_all {B} s (n : nat) (f : Z -> M B)
    (post : B -> State -> Prop) :
  (1 <= n)%nat ->
  (forall s', same_store s s' -> returns (f 0) s' post) ->
  returns (candidates <- sample (py_range (Z.of_nat n)) (Z.of_nat n) ;;
           m <- py_min candidates ;; f m) s post.
Proof.
  intros Hn Hf. apply returns_bind. unfold sample.
  rewrite py_range_length, Nat2Z.id.
  destruct (Z.ltb_spec (Z.of_nat n) 0); [lia |].
  destruct (Z.ltb_spec (Z.of_nat n) (Z.of_nat n)); [lia |]. simpl.
  eapply returns_weaken.
  { apply sample_loop_all. now rewrite py_range_length, Nat2Z.id. }
  intros res s' (Hperm & Hs').
  assert (Hzero : In 0 res).
  { eapply Permutation_in; [symmetry; exact Hperm |].
    unfold py_range. rewrite Nat2Z.id. apply in_map_iff.
    exists 0%nat. split; [reflexivity | apply in_seq; lia]. }
  assert (Hres : res <> []) by (intros ->; contradiction).
  destruct (py_min_returns res s' Hres) as (m & Hmin & Hin & Hle).
  assert (Hm : m = 0).
  { rewrite Forall_forall in Hle. pose proof (Hle 0 Hzero).
    pose proof (py_range_In _ _ (Permutation_in _ Hperm Hin)). lia. }
  subst m.
  apply returns_bind. eapply returns_eq; [exact Hmin |].
  now apply Hf.
Qed.

Lemma second_draw_fails {B} s (n : nat) (k : Z) (f : Z -> M B) :
  ~ (1 <= k <= Z.of_nat n) ->
  (candidates <- sample (py_range (Z.of_nat n)) k ;;
   m <- py_min candidates ;; f m) s = (Err ValueError, s).
Proof.
  intros Hk. unfold sample. rewrite py_range_length, Nat2Z.id.
  destruct (Z.ltb_spec k 0); [reflexivity |].
  destruct (Z.ltb_spec (Z.of_nat n) k); [reflexivity |].
  assert (k = 0) by lia. subst k. reflexivity.
Qed.

Lemma fit_second_fails s p l Sf n_comp :
  nth_error (lists s) p = Some l ->
  ~ (1 <= Sf <= Z.of_nat (length l)) ->
  fit_tournament p Sf n_comp false s = (Err ValueError, s).
Proof.
  intros Hp HSf. unfold fit_tournament.
  rewrite (bind_val _ _ _ _ _ (len_run _ _ _ Hp)).
  now apply second_draw_fails.
Qed.

(** X3: in second-tournament mode [fit_tournament] returns a value exactly
    when [1 <= Sf <= len(population)]; otherwise it raises ValueError (the
    sample is larger than the list or negative, or [min] has nothing to
    choose from) and the state is the one it was called in. *)
Theorem fit_second_value_iff :
  forall (s : State) (p : loc) (l : list ref) (Sf n_comp : Z),
    nth_error (lists s) p = Some l ->
    ((exists v, fst (fit_tournament p Sf n_comp false s) = Val v) <->
     1 <= Sf <= Z.of_nat (length l)) /\
    (~ (1 <= Sf <= Z.of_nat (length l)) ->
     fit_tournament p Sf n_comp false s = (Err ValueError, s)).
Proof.
  intros s p l Sf n_comp Hp.
  assert (Herr : ~ (1 <= Sf <= Z.of_nat (length l)) ->
                 fit_tournament p Sf n_comp false s = (Err ValueError, s)).
  { now apply fit_second_fails. }
  split; [| exact Herr].
  split.
  - intros [v Hv].
    destruct (Z.le_gt_cases 1 Sf), (Z.le_gt_cases Sf (Z.of_nat (length l)));
      try lia; rewrite Herr in Hv by lia; discriminate.
  - intros HSf.
    destruct (fit_second_returns s p l Sf n_comp Hp HSf)
      as (v & s' & Hrun & _).
    exists v. now rewrite Hrun.
Qed.

Lemma fit_second_value_iff_witness :
  fit_tournament 0%nat 3 1 false (sample_state [1; 0]) =
    (Err ValueError, sample_state [1; 0]).
Proof.
  apply (proj2 (fit_second_value_iff (sample_state [1; 0]) 0%nat
                  [0%nat; 1%nat] 3 1 eq_refl)).
  simpl. lia.
Defined.

Lemma fit_second_full_returns s p x l n_comp :
  nth_error (lists s) p = Some (x :: l) ->
  returns (fit_tournament p (Z.of_nat (length (x :: l))) n_comp false) s
    (fun v s' => v = VInd x /\ same_store s s').
Proof.
  intros Hp. unfold fit_tournament.
  apply returns_bind. eapply returns_eq; [apply (len_run _ _ _ Hp) |].
  apply second_draw_all; [cbn [length]; lia |].
  intros s' Hs'.
  assert (Hget : getitem p 0 s' = (Val x, s')).
  { unfold getitem.
    assert (Hp' : nth_error (lists s') p = Some (x :: l))
      by (destruct Hs' as [-> _]; exact Hp).
    now rewrite (bind_val _ _ _ _ _ (contents_run _ _ _ Hp')). }
  apply returns_bind. eapply returns_eq; [exact Hget |].
  apply returns_ret. split; [reflexivity | exact Hs'].
Qed.

(** X4: in second-tournament mode with [Sf = len(population)], every
    position is sampled, so [fit_tournament] returns the first element of
    the list whatever the random source does. *)
Theorem fit_second_full_sample :
  forall (s : State) (p : loc) (x : ref) (l : list ref) (n_comp : Z),
    nth_error (lists s) p = Some (x :: l) ->
    exists s',
      fit_tournament p (Z.of_nat (length (x :: l))) n_comp false s =
        (Val (VInd x), s') /\
      same_store s s'.
Proof.
  intros s p x l n_comp Hp.
  destruct (fit_second_full_returns s p x l n_comp Hp)
    as (v & s' & Hrun & -> & Hs').
  exists s'. split; assumption.
Qed.

Lemma fit_second_full_sample_witness :
  fst (fit_tournament 0%nat 2 1 false (sample_state [1; 1])) = Val (VInd 0%nat).
Proof.
  destruct (fit_second_full_sample (sample_state [1; 1]) 0%nat 0%nat [1%nat] 1
              eq_refl) as (s' & Hrun & _).
  change (Z.of_nat (length [0%nat; 1%nat])) with 2 in Hrun.
  now rewrite Hrun.
Defined.

Lemma sorted_head_least {A} (R : A -> A -> Prop) (x : A) (l : list A) :
  (forall a b c, R a b -> R b c -> R a c) ->
  R x x ->
  Sorted R (x :: l) ->
  Forall (R x) (x :: l).
Proof.
  intros Htrans Hrefl Hs.
  apply (sorted_strongly R Htrans) in Hs.
  inversion Hs; subst. now constructor.
Qed.

Lemma size_second_full_returns s q items n_comp :
  nth_error (lists s) q = Some items ->
  items <> [] ->
  Forall (grown s) items ->
  returns (size_tournament q (Z.of_nat (length items)) n_comp false) s
    (fun v s' => exists r, v = VInd r /\ In r items /\
                           Forall (size_le s r) items /\ untouched s s').
Proof.
  intros Hq Hne Hg. unfold size_tournament.
  destruct (sorted_by_size_run s q items Hq Hg) as (out & Hrun & Hperm & Hsorted).
  set (s1 := mkState (rng s) (lists s ++ [out]) (inds s)) in *.
  assert (Hq1 : nth_error (lists s1) q = Some items)
    by (simpl; now apply nth_error_grow).
  assert (Hunt : untouched s s1).
  { split; [reflexivity |]. intros p' lp. simpl. apply nth_error_grow. }
  destruct out as [| r out'].
  { apply Permutation_nil in Hperm. contradiction. }
  assert (Hr : In r items)
    by (eapply Permutation_in; [exact Hperm | now left]).
  assert (Hleast : Forall (size_le s r) items).
  { eapply Permutation_Forall; [exact Hperm |].
    apply sorted_head_least; [apply size_le_trans | | exact Hsorted].
    apply size_le_refl. rewrite Forall_forall in Hg. now apply Hg. }
  apply returns_bind. eapply returns_eq; [exact Hrun |].
  apply returns_bind. eapply returns_eq; [apply (len_run _ _ _ Hq1) |].
  apply second_draw_all.
  { destruct items; [congruence | cbn [length]; lia]. }
  intros s' Hs'.
  assert (Hget : getitem (length (lists s)) 0 s' = (Val r, s')).
  { unfold getitem.
    assert (Hp' : nth_error (lists s') (length (lists s)) = Some (r :: out'))
      by (destruct Hs' as [-> _]; apply nth_error_snoc).
    now rewrite (bind_val _ _ _ _ _ (contents_run _ _ _ Hp')). }
  apply returns_bind. eapply returns_eq; [exact Hget |].
  apply returns_ret. exists r.
  split; [reflexivity |]. split; [exact Hr |]. split; [exact Hleast |].
  eapply untouched_trans; [exact Hunt |].
  destruct Hs' as [Hl Hi]. split; [exact Hi |]. intros p' lp. now rewrite Hl.
Qed.

(** X5: in second-tournament mode with [Sp = len(population)],
    [size_tournament] returns a smallest Individual of the list, whatever
    the random source does and whatever the order of the list. *)
Theorem size_second_full_sample :
  forall (s : State) (p : loc) (l : list ref) (n_comp : Z),
    nth_error (lists s) p = Some l ->
    l <> [] ->
    Forall (grown s) l ->
    exists r s',
      size_tournament p (Z.of_nat (length l)) n_comp false s =
        (Val (VInd r), s') /\
      In r l /\
      Forall (size_le s r) l /\
      nth_error (lists s') p = Some l.
Proof.
  intros s p l n_comp Hp Hl Hg.
  destruct (size_second_full_returns s p l n_comp Hp Hl Hg)
    as (v & s' & Hrun & r & -> & Hr & Hleast & Hunt).
  exists r, s'. repeat split; try assumption. now apply Hunt.
Qed.

Lemma size_second_full_sample_witness :
  fst (size_tournament 0%nat 2 1 false (sample_state [0; 0])) = Val (VInd 1%nat).
Proof.
  destruct (size_second_full_sample (sample_state [0; 0]) 0%nat
              [0%nat; 1%nat] 1) as (r & s' & Hrun & _ & Hleast & _).
  - reflexivity.
  - discriminate.
  - repeat constructor; eexists; reflexivity.
  - change (Z.of_nat (length [0%nat; 1%nat])) with 2 in Hrun.
    rewrite Hrun. simpl.
    apply (f_equal fst) in Hrun. vm_compute in Hrun. now rewrite Hrun.
Defined.

Lemma size_second_fails s p l Sp n_comp :
  nth_error (lists s) p = Some l ->
  Forall (grown s) l ->
  ~ (1 <= Sp <= Z.of_nat (length l)) ->
  exists out,
    size_tournament p Sp n_comp false s =
      (Err ValueError, mkState (rng s) (lists s ++ [out]) (inds s)) /\
    Permutation out l /\
    Sorted (size_le s) out.
Proof.
  intros Hp Hg HSp.
  destruct (sorted_by_size_run s p l Hp Hg) as (out & Hrun & Hperm & Hsorted).
  exists out. split; [| split; assumption].
  unfold size_tournament. rewrite (bind_val _ _ _ _ _ Hrun).
  set (s1 := mkState (rng s) (lists s ++ [out]) (inds s)).
  assert (Hq1 : nth_error (lists s1) p = Some l)
    by (simpl; now apply nth_error_grow).
  rewrite (bind_val _ _ _ _ _ (len_run _ _ _ Hq1)).
  now apply second_draw_fails.
Qed.

(** X6: in second-tournament mode [size_tournament] sorts first and
    samples after: outside [1 <= Sp <= len(population)] it raises
    ValueError with the sorted copy already made, and no draw consumed. *)
Theorem size_second_out_of_range :
  forall (s : State) (p : loc) (l : list ref) (Sp n_comp : Z),
    nth_error (lists s) p = Some l ->
    Forall (grown s) l ->
    ~ (1 <= Sp <= Z.of_nat (length l)) ->
    exists out s',
      size_tournament p Sp n_comp false s = (Err ValueError, s') /\
      rng s' = rng s /\
      inds s' = inds s /\
      lists s' = lists s ++ [out] /\
      Permutation out l /\
      Sorted (size_le s) out.
Proof.
  intros s p l Sp n_comp Hp Hg HSp.
  destruct (size_second_fails s p l Sp n_comp Hp Hg HSp)
    as (out & Hrun & Hperm & Hsorted).
  eexists out, _. split; [exact Hrun |].
  repeat split; assumption.
Qed.

Lemma size_second_out_of_range_witness :
  fst (size_tournament 0%nat 3 1 false (sample_state [0; 0])) = Err ValueError.
Proof.
  destruct (size_second_out_of_range (sample_state [0; 0]) 0%nat
              [0%nat; 1%nat] 3 1) as (out & s' & Hrun & _).
  - reflexivity.
  - repeat constructor; eexists; reflexivity.
  - simpl. lia.
  - now rewrite Hrun.
Defined.

(** ** The first stage *)

(** X7: in first-tournament mode, on a non-empty population of Individuals
    with a tree and a fitness and for [n_comp >= 1], [size_tournament]
    returns a new list of [max(Sp, 0)] winners, all from the population,
    sorted ascending by fitness; the population list keeps its items. *)
Theorem size_first_shortlist :
  forall (s : State) (p : loc) (l : list ref) (Sp n_comp : Z),
    nth_error (lists s) p = Some l ->
    l <> [] ->
    Forall (grown s) l ->
    Forall (evaluated s) l ->
    1 <= n_comp ->
    exists q items s',
      size_tournament p Sp n_comp true s = (Val (VList q), s') /\
      nth_error (lists s') q = Some items /\
      q <> p /\
      Z.of_nat (length items) = Z.max Sp 0 /\
      Forall (fun r => In r l) items /\
      Sorted (fitness_le s) items /\
      nth_error (lists s') p = Some l.
Proof.
  intros s p l Sp n_comp Hp Hl Hg Hev Hn.
  destruct (size_first_returns s p l Sp n_comp Hp Hl Hg Hev Hn)
    as (v & s' & Hrun & q & items & -> & Hq & Hfresh & Hlen & Hin & Hsorted & Hunt).
  exists q, items, s'.
  split; [exact Hrun |]. split; [exact Hq |].
  split.
  { assert (p < length (lists s))%nat by (apply nth_error_Some; congruence).
    lia. }
  split; [lia |]. split; [exact Hin |]. split; [exact Hsorted |].
  now apply Hunt.
Qed.

Lemma size_first_shortlist_witness :
  exists q items s',
    size_tournament 0%nat 2 1 true (sample_state [0; 1]) = (Val (VList q), s') /\
    nth_error (lists s') q = Some items /\
    Z.of_nat (length items) = 2.
Proof.
  destruct (size_first_shortlist (sample_state [0; 1]) 0%nat [0%nat; 1%nat] 2 1)
    as (q & items & s' & Hrun & Hq & _ & Hlen & _).
  - reflexivity.
  - discriminate.
  - repeat constructor; eexists; reflexivity.
  - repeat constructor; eexists; reflexivity.
  - lia.
  - exists q, items, s'. repeat split; assumption.
Defined.

(** X8: in first-tournament mode with [Sf >= 1], [fit_tournament] raises
    ValueError in its first tournament, the state untouched, when the
    population is empty ([randint(0, -1)]) or [n_comp < 1] ([min] of no
    draw). *)
Theorem fit_first_no_competitor :
  forall (s : State) (p : loc) (l : list ref) (Sf n_comp : Z),
    nth_error (lists s) p = Some l ->
    1 <= Sf ->
    l = [] \/ n_comp < 1 ->
    fit_tournament p Sf n_comp true s = (Err ValueError, s).
Proof.
  intros s p l Sf n_comp Hp HSf Hbad.
  unfold fit_tournament, comprehension.
  destruct (Z.to_nat Sf) as [| k] eqn:E; [lia |].
  cbn [replicateM]. apply bind_err. apply bind_err.
  destruct (Z.lt_ge_cases n_comp 1) as [Hn | Hn].
  - unfold draw_indices, comprehension.
    replace (Z.to_nat n_comp) with 0%nat by lia.
    cbn [replicateM]. reflexivity.
  - destruct Hbad as [-> | Hlt]; [| lia].
    apply bind_err. now apply draw_indices_empty.
Qed.

Lemma fit_first_no_competitor_witness :
  fit_tournament 0%nat 2 0 true (sample_state [0; 1]) =
    (Err ValueError, sample_state [0; 1]).
Proof.
  apply (fit_first_no_competitor (sample_state [0; 1]) 0%nat [0%nat; 1%nat] 2 0);
    [reflexivity | lia | right; lia].
Defined.

(** ** The double tournament with equal pool sizes *)

Lemma py_assert_geb_refl s Sz : py_assert (Sz >=? Sz) s = (Val tt, s).
Proof. unfold py_assert. destruct (Z.geb_spec Sz Sz); [reflexivity | lia]. Qed.

(** X9: with fitness first ([switch] unset) and [Sp = Sf], the size stage
    samples every position of the shortlist, so [double_tournament]
    returns a smallest Individual of the fitness shortlist: the random
    source only matters in the first stage. *)
Theorem double_tournament_equal_pools_smallest :
  forall (s : State) (p : loc) (l : list ref) (Sz n_comp : Z),
    nth_error (lists s) p = Some l ->
    l <> [] ->
    Forall (grown s) l -> Forall (evaluated s) l ->
    1 <= Sz -> 1 <= n_comp ->
    exists q items s1 r s',
      fit_tournament p Sz n_comp true s = (Val (VList q), s1) /\
      nth_error (lists s1) q = Some items /\
      double_tournament p Sz Sz n_comp false s = (Val (VInd r), s') /\
      In r items /\
      Forall (size_le s r) items.
Proof.
  intros s p l Sz n_comp Hp Hl Hg Hev HS Hn.
  destruct (fit_first_returns s p l Sz n_comp Hp Hl Hev Hn)
    as (v & s1 & Hrun1 & q & items & -> & Hq & _ & Hlen & Hin & _ & Hunt).
  assert (Hi : inds s1 = inds s) by apply Hunt.
  assert (Hne : items <> []).
  { intros ->. simpl in Hlen. lia. }
  assert (Hg1 : Forall (grown s1) items).
  { apply (Forall_sub _ l); [| exact Hin].
    eapply Forall_impl; [| exact Hg]. intros r. now apply grown_same. }
  destruct (size_second_full_returns s1 q items n_comp Hq Hne Hg1)
    as (v & s' & Hrun2 & r & -> & Hr & Hleast & _).
  exists q, items, s1, r, s'.
  split; [exact Hrun1 |]. split; [exact Hq |].
  split.
  { unfold double_tournament.
    rewrite (bind_val _ _ _ _ _ (py_assert_geb_refl s Sz)).
    rewrite (bind_val _ _ _ _ _ Hrun1).
    unfold as_list. rewrite (bind_val _ _ _ _ _ (eq_refl : ret q s1 = (Val q, s1))).
    assert (ES : Z.of_nat (length items) = Sz) by lia.
    rewrite ES in Hrun2. exact Hrun2. }
  split; [exact Hr |].
  unfold size_le, size_of in *. now rewrite <- Hi.
Qed.

Lemma double_tournament_equal_pools_smallest_witness :
  exists r,
    fst (double_tournament 0%nat 2 2 1 false (sample_state [0; 1; 0; 0])) =
      Val (VInd r).
Proof.
  destruct (double_tournament_equal_pools_smallest (sample_state [0; 1; 0; 0])
              0%nat [0%nat; 1%nat] 2 1)
    as (q & items & s1 & r & s' & _ & _ & Hrun & _).
  - reflexivity.
  - discriminate.
  - repeat constructor; eexists; reflexivity.
  - repeat constructor; eexists; reflexivity.
  - lia.
  - lia.
  - exists r. now rewrite Hrun.
Defined.

(** X10: with size first ([switch] set) and [Sf = Sp], the fitness stage
    samples every position of the shortlist, so [double_tournament]
    returns its first element, a fittest of the winners of the size
    tournaments. *)
Theorem double_tournament_equal_pools_fittest :
  forall (s : State) (p : loc) (l : list ref) (Sz n_comp : Z),
    nth_error (lists s) p = Some l ->
    l <> [] ->
    Forall (grown s) l -> Forall (evaluated s) l ->
    1 <= Sz -> 1 <= n_comp ->
    exists q items s1 r s',
      size_tournament p Sz n_comp true s = (Val (VList q), s1) /\
      nth_error (lists s1) q = Some items /\
      double_tournament p Sz Sz n_comp true s = (Val (VInd r), s') /\
      hd_error items = Some r /\
      Forall (fitness_le s r) items.
Proof.
  intros s p l Sz n_comp Hp Hl Hg Hev HS Hn.
  destruct (size_first_returns s p l Sz n_comp Hp Hl Hg Hev Hn)
    as (v & s1 & Hrun1 & q & items & -> & Hq & _ & Hlen & Hin & Hsorted & Hunt).
  destruct items as [| r items']; [simpl in Hlen; lia |].
  destruct (fit_second_full_returns s1 q r items' n_comp Hq)
    as (v & s' & Hrun2 & -> & _).
  exists q, (r :: items'), s1, r, s'.
  split; [exact Hrun1 |]. split; [exact Hq |].
  split.
  { unfold double_tournament.
    rewrite (bind_val _ _ _ _ _ (py_assert_geb_refl s Sz)).
    rewrite (bind_val _ _ _ _ _ Hrun1).
    unfold as_list. rewrite (bind_val _ _ _ _ _ (eq_refl : ret q s1 = (Val q, s1))).
    assert (ES : Z.of_nat (length (r :: items')) = Sz) by lia.
    rewrite ES in Hrun2. exact Hrun2. }
  split; [reflexivity |].
  apply sorted_head_least; [apply fitness_le_trans | | exact Hsorted].
  apply fitness_le_refl.
  rewrite Forall_forall in Hev, Hin. apply Hev, Hin. now left.
Qed.

Lemma double_tournament_equal_pools_fittest_witness :
  exists r,
    fst (double_tournament 0%nat 2 2 1 true (sample_state [0; 1; 0; 0])) =
      Val (VInd r).
Proof.
  destruct (double_tournament_equal_pools_fittest (sample_state [0; 1; 0; 0])
              0%nat [0%nat; 1%nat] 2 1)
    as (q & items & s1 & r & s' & _ & _ & Hrun & _).
  - reflexivity.
  - discriminate.
  - repeat constructor; eexists; reflexivity.
  - repeat constructor; eexists; reflexivity.
  - lia.
  - lia.
  - exists r. now rewrite Hrun.
Defined.

(** ** Elitism: bounds and copies *)

(** X11: a negative [n] does not raise in [getElite]: the slice counts
    from the end, so the result holds all but the last [-n] Individuals,
    and none when [-n] reaches the size of the population. *)
Theorem getElite_negative_bound :
  forall (s : State) (p : loc) (l : list ref) (n : Z),
    nth_error (lists s) p = Some l ->
    n < 0 ->
    exists q s' items,
      getElite p n s = (Val q, s') /\
      nth_error (lists s') q = Some items /\
      items = firstn (length l - Z.to_nat (- n)) l /\
      Z.of_nat (length items) = Z.max 0 (Z.of_nat (length l) + n) /\
      rng s' = rng s.
Proof.
  intros s p l n Hp Hn.
  eexists _, _, _. split; [apply (getElite_run _ _ _ _ Hp) |]. simpl.
  split; [apply nth_error_snoc |].
  assert (E : slice_to l n = firstn (length l - Z.to_nat (- n)) l).
  { unfold slice_to. destruct (Z.ltb_spec n 0); [| lia]. f_equal. lia. }
  split; [exact E |]. split; [| reflexivity].
  rewrite E, length_firstn. lia.
Qed.

Lemma getElite_negative_bound_witness :
  exists q s',
    getElite 0%nat (-1) (sample_state []) = (Val q, s') /\
    nth_error (lists s') q = Some [0%nat].
Proof.
  destruct (getElite_negative_bound (sample_state []) 0%nat [0%nat; 1%nat] (-1))
    as (q & s' & items & Hrun & Hq & Hitems & _); [reflexivity | lia |].
  exists q, s'. split; [exact Hrun |]. rewrite Hq, Hitems. reflexivity.
Defined.

(** X12: the list [getElite] returns is a copy, not a view: an [append] to
    it changes the elite list and leaves the population as it was. *)
Theorem getElite_result_is_a_copy :
  forall (s : State) (p : loc) (l : list ref) (n : Z) (x : ref),
    nth_error (lists s) p = Some l ->
    exists q s1 s2,
      getElite p n s = (Val q, s1) /\
      q <> p /\
      append q x s1 = (Val tt, s2) /\
      nth_error (lists s2) q = Some (slice_to l n ++ [x]) /\
      nth_error (lists s2) p = Some l.
Proof.
  intros s p l n x Hp.
  set (s1 := mkState (rng s) (lists s ++ [slice_to l n]) (inds s)).
  exists (length (lists s)), s1, (mkState (rng s1) (lists s ++ [slice_to l n ++ [x]]) (inds s1)).
  split; [apply (getElite_run _ _ _ _ Hp) |].
  assert (Hlt : (p < length (lists s))%nat) by (apply nth_error_Some; congruence).
  split; [lia |].
  split; [now apply append_run |].
  simpl. split; [apply nth_error_snoc | now apply nth_error_grow].
Qed.

Lemma getElite_result_is_a_copy_witness :
  exists q s1 s2,
    getElite 0%nat 1 (sample_state []) = (Val q, s1) /\
    append q 1%nat s1 = (Val tt, s2) /\
    nth_error (lists s2) 0 = Some [0%nat; 1%nat].
Proof.
  destruct (getElite_result_is_a_copy (sample_state []) 0%nat [0%nat; 1%nat]
              1 1%nat eq_refl) as (q & s1 & s2 & Hrun & _ & Happ & _ & Hp).
  exists q, s1, s2. repeat split; assumption.
Defined.

(** ** The depth filter: composition and extremes *)

Lemma filter_filter {A} (f g : A -> bool) (l : list A) :
  filter f (filter g l) = filter (fun x => g x && f x) l.
Proof.
  induction l as [| x l IH]; simpl; [reflexivity |].
  destruct (g x); simpl; [destruct (f x); now rewrite IH | exact IH].
Qed.

Lemma within_depth_min s L1 L2 r :
  within_depth s (Z.min L1 L2) r = within_depth s L1 r && within_depth s L2 r.
Proof.
  unfold within_depth. destruct (depth_of s r) as [d |]; [| reflexivity].
  destruct (Z.leb_spec d L1), (Z.leb_spec d L2), (Z.leb_spec d (Z.min L1 L2));
    simpl; try reflexivity; lia.
Qed.

(** X13: two depth filters in a row are one filter at the lower limit:
    [discardDeep(discardDeep(l, L1), L2)] holds the items of
    [discardDeep(l, min(L1, L2))], so the order of the two limits does not
    matter. *)
Theorem discardDeep_twice :
  forall (s : State) (p : loc) (l : list ref) (L1 L2 : Z),
    nth_error (lists s) p = Some l ->
    Forall (grown s) l ->
    exists q1 s1 q2 s2,
      discardDeep p L1 s = (Val q1, s1) /\
      discardDeep q1 L2 s1 = (Val q2, s2) /\
      nth_error (lists s2) q2 = Some (filter (within_depth s (Z.min L1 L2)) l) /\
      nth_error (lists s2) p = Some l.
Proof.
  intros s p l L1 L2 Hp Hg.
  set (k1 := filter (within_depth s L1) l).
  set (s1 := mkState (rng s) (lists s ++ [k1]) (inds s)).
  assert (Hk1 : Forall (grown s1) k1).
  { unfold k1. apply Forall_forall. intros r Hr.
    apply filter_In in Hr. destruct Hr as [Hr _].
    rewrite Forall_forall in Hg. exact (Hg r Hr). }
  pose proof (discardDeep_run s p l L1 Hp Hg) as Hrun1. fold k1 s1 in Hrun1.
  pose proof (discardDeep_run s1 (length (lists s)) k1 L2
                (nth_error_snoc _ _) Hk1) as Hrun2.
  eexists _, _, _, _. split; [exact Hrun1 |]. split; [exact Hrun2 |].
  split.
  - change (nth_error (lists s1 ++ [filter (within_depth s L2) k1])
                       (length (lists s1)) =
            Some (filter (within_depth s (Z.min L1 L2)) l)).
    rewrite nth_error_snoc. f_equal. unfold k1. rewrite filter_filter.
    apply filter_ext. intros r. symmetry. apply within_depth_min.
  - simpl. now apply nth_error_grow, nth_error_grow.
Qed.

Lemma discardDeep_twice_witness :
  exists q1 s1 q2 s2,
    discardDeep 0%nat 2 (sample_state []) = (Val q1, s1) /\
    discardDeep q1 1 s1 = (Val q2, s2) /\
    nth_error (lists s2) q2 = Some [1%nat].
Proof.
  destruct (discardDeep_twice (sample_state []) 0%nat [0%nat; 1%nat] 2 1)
    as (q1 & s1 & q2 & s2 & H1 & H2 & Hq & _).
  - reflexivity.
  - repeat constructor; eexists; reflexivity.
  - exists q1, s1, q2, s2. split; [exact H1 |]. split; [exact H2 |].
    rewrite Hq. reflexivity.
Defined.

Lemma filter_length_le' {A} (f : A -> bool) (l : list A) :
  (length (filter f l) <= length l)%nat.
Proof.
  induction l as [| x l IH]; simpl; [lia |]. destruct (f x); simpl; lia.
Qed.

Lemma filter_all_iff {A} (f : A -> bool) (l : list A) :
  filter f l = l <-> Forall (fun x => f x = true) l.
Proof.
  induction l as [| x l IH]; simpl.
  - split; [constructor | reflexivity].
  - destruct (f x) eqn:E.
    + split.
      * intros [= H]. constructor; [exact E | now apply IH].
      * intros H. inversion H; subst. f_equal. now apply IH.
    + split.
      * intros H. pose proof (filter_length_le' f l) as Hlen.
        rewrite H in Hlen. simpl in Hlen. lia.
      * intros H. inversion H; subst. congruence.
Qed.

Lemma filter_none_iff {A} (f : A -> bool) (l : list A) :
  filter f l = [] <-> Forall (fun x => f x = false) l.
Proof.
  induction l as [| x l IH]; simpl.
  - split; [constructor | reflexivity].
  - destruct (f x) eqn:E.
    + split; [discriminate | intros H; inversion H; subst; congruence].
    + split.
      * intros H. constructor; [exact E | now apply IH].
      * intros H. inversion H; subst. now apply IH.
Qed.

(** X14: [discardDeep] never returns more than it was given; it returns
    all the Individuals exactly when none is deeper than the limit, and an
    empty list exactly when every one is. *)
Theorem discardDeep_all_or_none :
  forall (s : State) (p : loc) (l : list ref) (limit : Z),
    nth_error (lists s) p = Some l ->
    Forall (grown s) l ->
    exists q s' kept,
      discardDeep p limit s = (Val q, s') /\
      nth_error (lists s') q = Some kept /\
      (length kept <= length l)%nat /\
      (kept = l <-> Forall (fun r => within_depth s limit r = true) l) /\
      (kept = [] <-> Forall (fun r => within_depth s limit r = false) l).
Proof.
  intros s p l limit Hp Hg.
  eexists _, _, _. split; [apply (discardDeep_run s p l limit Hp Hg) |].
  split; [apply nth_error_snoc |].
  split; [apply filter_length_le' |].
  split; [apply filter_all_iff | apply filter_none_iff].
Qed.

Lemma discardDeep_all_or_none_witness :
  exists q s',
    discardDeep 0%nat 0 (sample_state []) = (Val q, s') /\
    nth_error (lists s') q = Some [].
Proof.
  destruct (discardDeep_all_or_none (sample_state []) 0%nat [0%nat; 1%nat] 0)
    as (q & s' & kept & Hrun & Hq & _ & _ & Hnone).
  - reflexivity.
  - repeat constructor; eexists; reflexivity.
  - exists q, s'. split; [exact Hrun |]. rewrite Hq. f_equal.
    apply Hnone. repeat constructor.
Defined.

(** ** Mutation *)

Lemma draws_only_ret {A} (a : A) : draws_only (ret a).
Proof. intros s. apply same_store_refl. Qed.

Lemma draws_only_raise {A} e : draws_only (@raise A e).
Proof. intros s. apply same_store_refl. Qed.

Lemma draws_only_bind {A B} (m : M A) (f : A -> M B) :
  draws_only m -> (forall a, draws_only (f a)) -> draws_only (bind m f).
Proof.
  intros Hm Hf s. unfold bind.
  specialize (Hm s). destruct (m s) as [[a | e] s1]; simpl in Hm.
  - eapply same_store_trans; [exact Hm | apply Hf].
  - exact Hm.
Qed.

Lemma draws_only_randint lo hi : draws_only (randint lo hi).
Proof.
  intros s. unfold randint. destruct (lo <=? hi); simpl;
    [apply same_store_with_rng | apply same_store_refl].
Qed.

Lemma draws_only_random : draws_only random.
Proof. intros s. apply same_store_with_rng. Qed.

Lemma draws_only_choice {A} (l : list A) : draws_only (choice l).
Proof.
  unfold choice. apply draws_only_bind; [apply draws_only_randint |].
  intros i. destruct (nth_error l (Z.to_nat i));
    [apply draws_only_ret | apply draws_only_raise].
Qed.

Lemma draws_only_replicateM {A} (body : M A) n :
  draws_only body -> draws_only (replicateM n body).
Proof.
  intros Hb. induction n as [| n IH]; simpl; [apply draws_only_ret |].
  apply draws_only_bind; [exact Hb |]. intros x.
  apply draws_only_bind; [exact IH |]. intros xs. apply draws_only_ret.
Qed.

Lemma draws_only_leaf ts :
  draws_only (t <- choice ts ;; ret (mkNode t [])).
Proof.
  apply draws_only_bind; [apply draws_only_choice |].
  intros t. apply draws_only_ret.
Qed.

Lemma draws_only_create ops ts : forall d, draws_only (create d ops ts).
Proof.
  induction d as [| d IH]; [apply draws_only_leaf |].
  destruct d as [| d']; [apply draws_only_leaf |].
  change (draws_only
            (c <- random ;;
             if Qlt_bool c (1 # 2) then
               op <- choice ops ;;
               bs <- replicateM (Z.to_nat (snd op)) (create (S d') ops ts) ;;
               ret (mkNode (fst op) bs)
             else t <- choice ts ;; ret (mkNode t []))).
  apply draws_only_bind; [apply draws_only_random |].
  intros c. destruct (Qlt_bool c (1 # 2)); [| apply draws_only_leaf].
  apply draws_only_bind; [apply draws_only_choice |]. intros op.
  apply draws_only_bind; [now apply draws_only_replicateM |].
  intros bs. apply draws_only_ret.
Qed.

Lemma STMUT_run s p ts double Sf Sp Switch ind1 s1 i1 h1 n s3 :
  select_parent p ts double Sf Sp Switch s = (Val ind1, s1) ->
  nth_error (inds s1) ind1 = Some i1 -> head i1 = Some h1 ->
  create (Z.to_nat (max_depth i1)) (operators i1) (terminals i1)
    (with_rng s1 (advance 1 (rng s1))) = (Val n, s3) ->
  let n1 := Z.to_nat (entropy (rng s1) (cursor (rng s1)) mod Z.of_nat (nsize h1)) in
  STMUT p ts double Sf Sp Switch s =
    (Val (length (lists s1)),
     mkState (rng s3) (lists s1 ++ [[length (inds s1)]])
       (inds s1 ++ [offspring_of i1 (graft_at h1 n1 n)])).
Proof.
  intros Hsel Hi1 Hh1 Hcreate n1.
  pose proof (draws_only_create (operators i1) (terminals i1)
                (Z.to_nat (max_depth i1))
                (with_rng s1 (advance 1 (rng s1)))) as Hsame.
  rewrite Hcreate in Hsame. simpl in Hsame. destruct Hsame as [Hl3 Hi3].
  unfold STMUT. fold (select_parent p ts double Sf Sp Switch).
  rewrite (bind_val _ _ _ _ _ Hsel).
  rewrite (bind_val _ _ _ _ _ (getHead_run _ _ _ _ Hi1 Hh1)).
  rewrite (bind_val _ _ _ _ _ (getRandomNode_run s1 h1)). fold n1.
  set (s2 := with_rng s1 (advance 1 (rng s1))) in *.
  assert (Hi2 : nth_error (inds s2) ind1 = Some i1) by exact Hi1.
  rewrite (bind_val _ _ _ _ _ (deref_run _ _ _ Hi2)).
  rewrite (bind_val _ _ _ _ _ Hcreate). cbv zeta.
  set (s4 := mkState (rng s3) (lists s3 ++ [[]]) (inds s3)).
  assert (H4 : new_list [] s3 = (Val (length (lists s3)), s4)) by reflexivity.
  rewrite (bind_val _ _ _ _ _ H4).
  assert (Hi4 : nth_error (inds s4) ind1 = Some i1)
    by (simpl; rewrite Hi3; exact Hi1).
  rewrite (bind_val _ _ _ _ _ (deref_run _ _ _ Hi4)).
  set (s5 := mkState (rng s4) (lists s4)
               (inds s4 ++ [mkIndividual (operators i1) (terminals i1)
                              (max_depth i1) (model_name i1) (fitnessType i1)
                              None None])).
  assert (H5 : new_Individual (operators i1) (terminals i1) (max_depth i1)
                 (model_name i1) (fitnessType i1) s4 =
               (Val (length (inds s4)), s5)) by reflexivity.
  rewrite (bind_val _ _ _ _ _ H5).
  rewrite (bind_val _ _ _ _ _ (copy_run s5 (inds s4) _ _ eq_refl)).
  cbn [operators terminals max_depth model_name fitnessType fitness rng lists s5].
  match goal with
  | |- bind (append _ _) _ ?st = _ =>
      rewrite (bind_val _ _ _ _ _
                 (append_run st (lists s3) [] (length (inds s4)) eq_refl))
  end.
  unfold ret. cbn [rng lists inds s4 app]. rewrite Hl3, Hi3. reflexivity.
Qed.

(** X15: when the selection returns a parent with a tree and the new
    subtree is grown, STMUT returns a list of exactly one Individual: a new
    object with the parent's configuration, no fitness, and the parent's
    tree with the new subtree grafted at the drawn node.  The parent is
    left as it was. *)
Theorem STMUT_one_offspring :
  forall (s : State) (p : loc) (ts : Z) (double : bool) (Sf Sp : Z)
         (Switch : bool) (ind1 : ref) (s1 : State) (i1 : Individual)
         (h1 n : Node) (s3 : State),
    select_parent p ts double Sf Sp Switch s = (Val ind1, s1) ->
    nth_error (inds s1) ind1 = Some i1 -> head i1 = Some h1 ->
    create (Z.to_nat (max_depth i1)) (operators i1) (terminals i1)
      (with_rng s1 (advance 1 (rng s1))) = (Val n, s3) ->
    exists q s' c o,
      STMUT p ts double Sf Sp Switch s = (Val q, s') /\
      nth_error (lists s') q = Some [c] /\
      nth_error (inds s') c = Some o /\
      (length (inds s1) <= c)%nat /\
      configuration o = configuration i1 /\
      fitness o = None /\
      head o = Some (graft_at h1
                       (Z.to_nat (entropy (rng s1) (cursor (rng s1))
                                  mod Z.of_nat (nsize h1))) n) /\
      nth_error (inds s') ind1 = Some i1.
Proof.
  intros s p ts double Sf Sp Switch ind1 s1 i1 h1 n s3 Hsel Hi1 Hh1 Hcreate.
  pose proof (STMUT_run s p ts double Sf Sp Switch ind1 s1 i1 h1 n s3
                Hsel Hi1 Hh1 Hcreate) as Hrun.
  cbv zeta in Hrun.
  eexists _, _, (length (inds s1)), _.
  split; [exact Hrun |]. cbn [lists inds].
  split; [apply nth_error_snoc |].
  split; [apply nth_error_snoc |].
  split; [lia |].
  split; [reflexivity |]. split; [reflexivity |]. split; [reflexivity |].
  now apply nth_error_grow.
Qed.

Lemma STMUT_one_offspring_witness :
  exists q s' c,
    STMUT 0%nat 1 false 1 1 false (sample_state [0; 0; 0; 0; 0; 1]) =
      (Val q, s') /\
    nth_error (lists s') q = Some [c].
Proof.
  destruct (STMUT_one_offspring (sample_state [0; 0; 0; 0; 0; 1]) 0%nat 1
              false 1 1 false 0%nat
              (snd (select_parent 0%nat 1 false 1 1 false
                      (sample_state [0; 0; 0; 0; 0; 1])))
              sample_plus (mkNode "+" [leaf "x"; leaf "y"])
              (mkNode "+" [leaf "x"; leaf "y"])
              (mkState (mkRng (fun t => nth t [0; 0; 0; 0; 0; 1] 0) 6)
                 [[0%nat; 1%nat]] [sample_plus; sample_leaf]))
    as (q & s' & c & o & Hrun & Hq & _); try reflexivity.
  exists q, s', c. split; assumption.
Defined.

(** ** Offspring generation: what comes back *)

Lemma bind_inv {A B} (m : M A) (f : A -> M B) s b s' :
  bind m f s = (Val b, s') ->
  exists a s1, m s = (Val a, s1) /\ f a s1 = (Val b, s').
Proof.
  unfold bind. destruct (m s) as [[a | e] s1]; [| discriminate].
  intros H. now exists a, s1.
Qed.

Lemma deref_inv s r i s' :
  deref r s = (Val i, s') -> nth_error (inds s) r = Some i /\ s' = s.
Proof.
  unfold deref. destruct (nth_error (inds s) r); [| discriminate].
  intros [= -> ->]. split; reflexivity.
Qed.

Lemma STXO_two s p ts double Sf Sp Switch q s' :
  STXO p ts double Sf Sp Switch s = (Val q, s') ->
  exists c1 c2, nth_error (lists s') q = Some [c1; c2] /\ c1 <> c2.
Proof.
  unfold STXO. intros H.
  apply bind_inv in H. destruct H as (ind1 & s1 & _ & H).
  apply bind_inv in H. destruct H as (ind2 & s2 & _ & H).
  apply bind_inv in H. destruct H as (h1 & s3 & _ & H).
  apply bind_inv in H. destruct H as (h2 & s4 & _ & H).
  apply bind_inv in H. destruct H as (n1 & s5 & _ & H).
  apply bind_inv in H. destruct H as (n2 & s6 & _ & H).
  cbv zeta in H.
  apply bind_inv in H. destruct H as (ret_ & s7 & Hnew & H).
  injection Hnew as <- <-.
  apply bind_inv in H. destruct H as ([] & s8 & Hloop & H).
  injection H as <- <-.
  cbn [forM_] in Hloop.
  apply bind_inv in Hloop. destruct Hloop as ([] & s9 & Hb1 & Hloop).
  apply bind_inv in Hloop. destruct Hloop as ([] & s10 & Hb2 & Hloop).
  injection Hloop as <-.
  pose proof Hb1 as Hd1. apply bind_inv in Hd1.
  destruct Hd1 as (i1 & ? & Hd1 & _). apply deref_inv in Hd1.
  destruct Hd1 as [Hi1 _].
  set (s7 := mkState (rng s6) (lists s6 ++ [[]]) (inds s6)) in *.
  pose proof (wrap_offspring_run s7 (lists s6) [] ind1 i1
                (fst (swap h1 n1 h2 n2)) eq_refl Hi1) as W1.
  pose proof (eq_trans (eq_sym W1) Hb1) as E1. injection E1 as <-.
  set (s8 := mkState (rng s7) (lists s6 ++ [[] ++ [length (inds s7)]])
               (inds s7 ++ [offspring_of i1 (fst (swap h1 n1 h2 n2))])) in *.
  pose proof (wrap_offspring_run s8 (lists s6) ([] ++ [length (inds s7)])
                ind1 i1 (snd (swap h1 n1 h2 n2)) eq_refl
                (nth_error_grow _ _ _ _ Hi1)) as W2.
  pose proof (eq_trans (eq_sym W2) Hb2) as E2. injection E2 as <-.
  cbn [lists inds app s8 s7]. eexists _, _. split; [apply nth_error_snoc |].
  rewrite length_app. simpl. lia.
Qed.

Lemma STMUT_one s p ts double Sf Sp Switch q s' :
  STMUT p ts double Sf Sp Switch s = (Val q, s') ->
  exists c, nth_error (lists s') q = Some [c].
Proof.
  unfold STMUT. intros H.
  apply bind_inv in H. destruct H as (ind1 & s1 & _ & H).
  apply bind_inv in H. destruct H as (h1 & s2 & _ & H).
  apply bind_inv in H. destruct H as (n1 & s3 & _ & H).
  apply bind_inv in H. destruct H as (p0 & s4 & _ & H).
  apply bind_inv in H. destruct H as (n & s5 & _ & H).
  cbv zeta in H.
  apply bind_inv in H. destruct H as (ret_ & s6 & Hnew & H).
  injection Hnew as <- <-.
  apply bind_inv in H. destruct H as (i1 & s7 & Hd & H).
  apply deref_inv in Hd. destruct Hd as [_ ->].
  apply bind_inv in H. destruct H as (i & s8 & Hni & H).
  injection Hni as <- <-.
  apply bind_inv in H. destruct H as ([] & s9 & Hcopy & H).
  match type of Hcopy with
  | copy _ ?h ?st = _ =>
      pose proof (eq_trans (eq_sym (copy_run st (inds s5) _ h eq_refl)) Hcopy)
        as E1
  end.
  injection E1 as <-.
  apply bind_inv in H. destruct H as ([] & s10 & Happ & H).
  match type of Happ with
  | append _ ?x ?st = _ =>
      pose proof (eq_trans (eq_sym (append_run st (lists s5) [] x eq_refl)) Happ)
        as E2
  end.
  injection E2 as <-. injection H as <- <-.
  cbn [lists]. eexists. apply nth_error_snoc.
Qed.

(** X16: whenever [getOffspring] returns, the list it returns is not
    empty: it holds two Individuals after a crossover (the coin below
    0.5) and one after a mutation, whatever their depth. *)
Theorem getOffspring_never_empty :
  forall (s : State) (p : loc) (ts : Z) (double : bool) (Sf Sp : Z)
         (Switch : bool) (q : loc) (s' : State),
    getOffspring p ts double Sf Sp Switch s = (Val q, s') ->
    exists items,
      nth_error (lists s') q = Some items /\
      (entropy (rng s) (cursor (rng s)) mod 2 ^ 53 < 2 ^ 52 ->
       length items = 2%nat) /\
      (2 ^ 52 <= entropy (rng s) (cursor (rng s)) mod 2 ^ 53 ->
       length items = 1%nat) /\
      items <> [].
Proof.
  intros s p ts double Sf Sp Switch q s' H.
  unfold getOffspring in H.
  apply bind_inv in H. destruct H as (c & s1 & Hc & H).
  injection Hc as <- <-. cbv zeta in H.
  set (raw := entropy (rng s) (cursor (rng s)) mod 2 ^ 53) in *.
  assert (Hcoin : Qlt_bool (Qmake raw (2 ^ 53)) (1 # 2) = true <-> raw < 2 ^ 52).
  { unfold Qlt_bool. rewrite negb_true_iff.
    destruct (Qle_bool (1 # 2) (Qmake raw (2 ^ 53))) eqn:Hle.
    - apply Qle_bool_iff in Hle. unfold Qle in Hle. simpl in Hle.
      split; [discriminate | lia].
    - split; [intros _ | reflexivity].
      destruct (Z.lt_ge_cases raw (2 ^ 52)) as [Hlt | Hge]; [exact Hlt |].
      assert (Hq : (1 # 2 <= Qmake raw (2 ^ 53))%Q)
        by (unfold Qle; simpl; lia).
      apply Qle_bool_iff in Hq. congruence. }
  match type of H with
  | (if ?b then _ else _) _ = _ =>
      change b with (Qlt_bool (Qmake raw (2 ^ 53)) (1 # 2)) in H
  end.
  destruct (Qlt_bool (Qmake raw (2 ^ 53)) (1 # 2)) eqn:E.
  - apply STXO_two in H. destruct H as (c1 & c2 & Hq & _).
    exists [c1; c2]. split; [exact Hq |].
    split; [reflexivity |].
    split; [| discriminate].
    intros Hge. assert (raw < 2 ^ 52) by now apply Hcoin. lia.
  - apply STMUT_one in H. destruct H as (c1 & Hq).
    exists [c1]. split; [exact Hq |].
    split; [| split; [reflexivity | discriminate]].
    intros Hlt. apply Hcoin in Hlt. discriminate.
Qed.

Lemma getOffspring_never_empty_witness :
  exists items,
    nth_error
      (lists (snd (getOffspring 0%nat 1 false 1 1 false
                     (sample_state [0; 0; 0; 0; 1]))))
      1 = Some items /\
    items <> [].
Proof.
  destruct (getOffspring_never_empty (sample_state [0; 0; 0; 0; 1]) 0%nat 1
              false 1 1 false 1%nat
              (snd (getOffspring 0%nat 1 false 1 1 false
                      (sample_state [0; 0; 0; 0; 1]))))
    as (items & Hq & _ & _ & Hne); [vm_compute; reflexivity |].
  exists items. split; assumption.
Defined.

(** ** Variation creates, it does not edit *)

Lemma grows_refl s : grows s s.
Proof. split; auto. Qed.

Lemma grows_trans s1 s2 s3 : grows s1 s2 -> grows s2 s3 -> grows s1 s3.
Proof. intros [L1 I1] [L2 I2]. split; auto. Qed.

Lemma untouched_grows s s' : untouched s s' -> grows s s'.
Proof. intros [Hi Hl]. split; [exact Hl |]. intros r i. now rewrite Hi. Qed.

Lemma frame_preserves {A} (m : M A) : frame m -> preserves m.
Proof. intros H s. apply untouched_grows, H. Qed.

Lemma preserves_bind {A B} (m : M A) (f : A -> M B) :
  preserves m -> (forall a, preserves (f a)) -> preserves (bind m f).
Proof.
  intros Hm Hf s. unfold bind.
  specialize (Hm s). destruct (m s) as [[a | e] s1]; simpl in Hm.
  - eapply grows_trans; [exact Hm | apply Hf].
  - exact Hm.
Qed.

Lemma draws_only_frame {A} (m : M A) : draws_only m -> frame m.
Proof.
  intros H s. destruct (H s) as [Hl Hi]. split; [exact Hi |].
  intros p l. now rewrite Hl.
Qed.

Lemma frame_select_parent p ts double Sf Sp Switch :
  frame (select_parent p ts double Sf Sp Switch).
Proof.
  unfold select_parent, as_ind. pose proof frame_double_tournament. frames.
Qed.

Lemma frame_getHead r : frame (getHead r).
Proof. unfold getHead. frames. Qed.

Lemma frame_getRandomNode h : frame (getRandomNode h).
Proof. unfold getRandomNode. frames. Qed.

Lemma frame_create d ops ts : frame (create d ops ts).
Proof. apply draws_only_frame, draws_only_create. Qed.

Lemma grows_new s ls is_ :
  grows s (mkState (rng s) (lists s ++ ls) (inds s ++ is_)).
Proof. split; intros ? ?; simpl; apply nth_error_grow. Qed.

Lemma STXO_tail_preserves ind1 ha hb :
  preserves
    (ret_ <- new_list [] ;;
     forM_ [ha; hb]
       (fun h =>
          p <- deref ind1 ;;
          i <- new_Individual (operators p) (terminals p) (max_depth p)
                 (model_name p) (fitnessType p) ;;
          copy i h ;;;
          append ret_ i) ;;;
     ret ret_).
Proof.
  intros s.
  set (s5 := mkState (rng s) (lists s ++ [[]]) (inds s)).
  assert (H5 : new_list [] s = (Val (length (lists s)), s5)) by reflexivity.
  rewrite (bind_val _ _ _ _ _ H5).
  destruct (nth_error (inds s) ind1) as [i1 |] eqn:Hi1.
  - pose proof (wrap_offspring_run s5 (lists s) [] ind1 i1 ha eq_refl Hi1) as W1.
    set (s6 := mkState (rng s5) (lists s ++ [[] ++ [length (inds s5)]])
                 (inds s5 ++ [offspring_of i1 ha])) in *.
    pose proof (wrap_offspring_run s6 (lists s) ([] ++ [length (inds s5)])
                  ind1 i1 hb eq_refl (nth_error_grow _ _ _ _ Hi1)) as W2.
    match goal with
    | |- context [forM_ ?l ?f] =>
        assert (Hfor : forM_ l f s5 = (Val tt, snd (f hb s6)))
    end.
    { cbn [forM_].
      rewrite (bind_val _ _ _ _ _ W1), (bind_val _ _ _ _ _ W2).
      rewrite W2. reflexivity. }
    rewrite (bind_val _ _ _ _ _ Hfor), W2.
    unfold ret. cbn [snd]. cbn [rng lists inds s6 s5].
    rewrite <- (app_assoc (inds s)). apply grows_new.
  - assert (Hd : deref ind1 s5 = (Err DanglingReference, s5))
      by (unfold deref; cbn [inds s5]; now rewrite Hi1).
    match goal with
    | |- context [forM_ ?l ?f] =>
        assert (Hfor : forM_ l f s5 = (Err DanglingReference, s5))
    end.
    { cbn [forM_]. apply bind_err, bind_err. exact Hd. }
    rewrite (bind_err _ _ _ _ _ Hfor).
    cbn [snd]. unfold s5.
    rewrite <- (app_nil_r (inds s)). apply grows_new.
Qed.

Lemma STMUT_tail_preserves ind1 h :
  preserves
    (ret_ <- new_list [] ;;
     p <- deref ind1 ;;
     i <- new_Individual (operators p) (terminals p) (max_depth p)
            (model_name p) (fitnessType p) ;;
     copy i h ;;;
     append ret_ i ;;;
     ret ret_).
Proof.
  intros s.
  set (s5 := mkState (rng s) (lists s ++ [[]]) (inds s)).
  assert (H5 : new_list [] s = (Val (length (lists s)), s5)) by reflexivity.
  rewrite (bind_val _ _ _ _ _ H5).
  destruct (nth_error (inds s) ind1) as [i1 |] eqn:Hi1.
  - assert (Hd : deref ind1 s5 = (Val i1, s5)) by now apply deref_run.
    rewrite (bind_val _ _ _ _ _ Hd).
    set (s6 := mkState (rng s5) (lists s5)
                 (inds s5 ++ [mkIndividual (operators i1) (terminals i1)
                                (max_depth i1) (model_name i1) (fitnessType i1)
                                None None])).
    assert (H6 : new_Individual (operators i1) (terminals i1) (max_depth i1)
                   (model_name i1) (fitnessType i1) s5 =
                 (Val (length (inds s5)), s6)) by reflexivity.
    rewrite (bind_val _ _ _ _ _ H6).
    rewrite (bind_val _ _ _ _ _ (copy_run s6 (inds s5) _ h eq_refl)).
    match goal with
    | |- grows _ (snd (bind (append _ ?x) _ ?st)) =>
        rewrite (bind_val _ _ _ _ _ (append_run st (lists s) [] x eq_refl))
    end.
    unfold ret. cbn [snd rng lists inds s6 s5]. apply grows_new.
  - assert (Hd : deref ind1 s5 = (Err DanglingReference, s5))
      by (unfold deref; cbn [inds s5]; now rewrite Hi1).
    rewrite (bind_err _ _ _ _ _ Hd).
    cbn [snd]. unfold s5.
    rewrite <- (app_nil_r (inds s)). apply grows_new.
Qed.

Lemma preserves_STXO p ts double Sf Sp Switch :
  preserves (STXO p ts double Sf Sp Switch).
Proof.
  unfold STXO. fold (select_parent p ts double Sf Sp Switch).
  pose proof frame_select_parent. pose proof frame_getHead.
  pose proof frame_getRandomNode.
  do 6 (apply preserves_bind; [apply frame_preserves; auto | intros ?]).
  cbv zeta. apply STXO_tail_preserves.
Qed.

Lemma preserves_STMUT p ts double Sf Sp Switch :
  preserves (STMUT p ts double Sf Sp Switch).
Proof.
  unfold STMUT. fold (select_parent p ts double Sf Sp Switch).
  pose proof frame_select_parent. pose proof frame_getHead.
  pose proof frame_getRandomNode. pose proof frame_create.
  pose proof frame_deref.
  do 5 (apply preserves_bind; [apply frame_preserves; auto | intros ?]).
  cbv zeta. apply STMUT_tail_preserves.
Qed.

(** X17: whatever their outcome, value or exception, STXO, STMUT and
    [getOffspring] only create: every list that existed before the call,
    the population among them, has the same items in the same order, and
    every Individual that existed, the parents among them, is as it
    was. *)
Theorem variation_only_creates :
  forall (s : State) (p : loc) (ts : Z) (double : bool) (Sf Sp : Z)
         (Switch : bool),
    grows s (snd (STXO p ts double Sf Sp Switch s)) /\
    grows s (snd (STMUT p ts double Sf Sp Switch s)) /\
    grows s (snd (getOffspring p ts double Sf Sp Switch s)).
Proof.
  intros s p ts double Sf Sp Switch.
  split; [apply preserves_STXO |]. split; [apply preserves_STMUT |].
  revert s.
  change (preserves (getOffspring p ts double Sf Sp Switch)).
  unfold getOffspring.
  apply preserves_bind; [apply frame_preserves, frame_random |].
  intros c. cbv zeta.
  destruct (Qlt_bool c (1 # 2)); [apply preserves_STXO | apply preserves_STMUT].
Qed.

(** X18: with the double tournament switched on and the dominance
    constraint broken, the failed assertion reaches the caller of the
    variation operators before anything is created: STXO and STMUT raise
    AssertionError in the state they were called in, [getOffspring] after
    the one draw of its coin. *)
Theorem variation_surfaces_dominance :
  forall (s : State) (p : loc) (ts Sf Sp : Z) (Switch : bool),
    dominance_violated Sf Sp Switch ->
    STXO p ts true Sf Sp Switch s = (Err AssertionError, s) /\
    STMUT p ts true Sf Sp Switch s = (Err AssertionError, s) /\
    getOffspring p ts true Sf Sp Switch s =
      (Err AssertionError, with_rng s (advance 1 (rng s))).
Proof.
  intros s p ts Sf Sp Switch Hd.
  assert (HX : forall s0, STXO p ts true Sf Sp Switch s0 = (Err AssertionError, s0)).
  { intros s0. unfold STXO. cbn [negb]. apply bind_err, bind_err.
    now apply double_tournament_violated. }
  assert (HM : forall s0, STMUT p ts true Sf Sp Switch s0 = (Err AssertionError, s0)).
  { intros s0. unfold STMUT. cbn [negb]. apply bind_err, bind_err.
    now apply double_tournament_violated. }
  split; [apply HX |]. split; [apply HM |].
  unfold getOffspring.
  assert (Hr : random s =
               (Val (Qmake (entropy (rng s) (cursor (rng s)) mod 2 ^ 53) (2 ^ 53)),
                with_rng s (advance 1 (rng s)))) by reflexivity.
  rewrite (bind_val _ _ _ _ _ Hr). cbv zeta.
  destruct (Qlt_bool _ _); [apply HX | apply HM].
Qed.

Lemma variation_surfaces_dominance_witness :
  getOffspring 0%nat 1 true 1 2 false (sample_state [0]) =
    (Err AssertionError, with_rng (sample_state [0]) (advance 1 (scripted [0]))).
Proof.
  apply (variation_surfaces_dominance (sample_state [0]) 0%nat 1 1 2 false).
  simpl. lia.
Defined.

(** ** The double tournament: when it returns *)

Lemma py_assert_geb_true s a b : b <= a -> py_assert (a >=? b) s = (Val tt, s).
Proof.
  intros H. unfold py_assert. destruct (Z.geb_spec a b); [reflexivity | lia].
Qed.

Lemma double_tournament_empty_second s p l (Sf Sp n_comp : Z) (switch : bool) :
  nth_error (lists s) p = Some l ->
  l <> [] ->
  Forall (grown s) l -> Forall (evaluated s) l ->
  1 <= n_comp ->
  (if switch then Sf else Sp) <= (if switch then Sp else Sf) ->
  (if switch then Sf else Sp) < 1 ->
  fst (double_tournament p Sf Sp n_comp switch s) = Err ValueError.
Proof.
  intros Hp Hl Hg Hev Hn Hle Hlt. unfold double_tournament.
  destruct switch.
  - rewrite (bind_val _ _ _ _ _ (py_assert_geb_true s Sp Sf Hle)).
    destruct (size_first_returns s p l Sp n_comp Hp Hl Hg Hev Hn)
      as (v & s1 & Hrun1 & q & items & -> & Hq & _ & Hlen & _).
    rewrite (bind_val _ _ _ _ _ Hrun1).
    unfold as_list. rewrite (bind_val _ _ _ _ _ (eq_refl : ret q s1 = (Val q, s1))).
    rewrite (fit_second_fails s1 q items Sf n_comp Hq) by lia. reflexivity.
  - rewrite (bind_val _ _ _ _ _ (py_assert_geb_true s Sf Sp Hle)).
    destruct (fit_first_returns s p l Sf n_comp Hp Hl Hev Hn)
      as (v & s1 & Hrun1 & q & items & -> & Hq & _ & Hlen & Hin & _ & Hunt).
    rewrite (bind_val _ _ _ _ _ Hrun1).
    unfold as_list. rewrite (bind_val _ _ _ _ _ (eq_refl : ret q s1 = (Val q, s1))).
    assert (Hg1 : Forall (grown s1) items).
    { apply (Forall_sub _ l); [| exact Hin].
      eapply Forall_impl; [| exact Hg]. intros r. apply grown_same, Hunt. }
    destruct (size_second_fails s1 q items Sp n_comp Hq Hg1)
      as (out & Herr & _); [lia |].
    now rewrite Herr.
Qed.

(** X19: the assertion is not the whole precondition.  On a non-empty
    population of Individuals with a tree and a fitness and for
    [n_comp >= 1], [double_tournament] returns an Individual exactly when
    the draw count of the second stage is at least 1 and at most the pool
    size of the first ([1 <= Sp <= Sf], or [1 <= Sf <= Sp] under
    [switch]); a second-stage count below 1 passes the assertion and
    raises ValueError after the first stage has run. *)
Theorem double_tournament_value_iff :
  forall (s : State) (p : loc) (l : list ref) (Sf Sp n_comp : Z) (switch : bool),
    nth_error (lists s) p = Some l ->
    l <> [] ->
    Forall (grown s) l -> Forall (evaluated s) l ->
    1 <= n_comp ->
    let first := if switch then Sp else Sf in
    let second := if switch then Sf else Sp in
    ((exists r, fst (double_tournament p Sf Sp n_comp switch s) = Val (VInd r)) <->
     1 <= second <= first) /\
    (second <= first -> second < 1 ->
     fst (double_tournament p Sf Sp n_comp switch s) = Err ValueError).
Proof.
  intros s p l Sf Sp n_comp switch Hp Hl Hg Hev Hn first second.
  assert (Hempty : second <= first -> second < 1 ->
            fst (double_tournament p Sf Sp n_comp switch s) = Err ValueError).
  { intros Hle Hlt.
    apply (double_tournament_empty_second s p l); assumption. }
  split; [| exact Hempty].
  split.
  - intros [r Hr].
    destruct (Z.lt_ge_cases first second) as [Hviol | Hle].
    + assert (Hd : dominance_violated Sf Sp switch)
        by (unfold dominance_violated, first, second in *; destruct switch; lia).
      rewrite (double_tournament_violated s p Sf Sp n_comp switch Hd) in Hr.
      discriminate.
    + destruct (Z.lt_ge_cases second 1) as [Hlt | Hge]; [| lia].
      rewrite (Hempty Hle Hlt) in Hr. discriminate.
  - intros [H1 H2].
    assert (Hd : ~ dominance_violated Sf Sp switch)
      by (unfold dominance_violated, first, second in *; destruct switch; lia).
    destruct (double_tournament_returns s p l Sf Sp n_comp switch Hp Hl Hg Hev)
      as (v & s' & Hrun & r & -> & _); try assumption.
    + unfold first, second in *; destruct switch; lia.
    + unfold first, second in *; destruct switch; lia.
    + exists r. now rewrite Hrun.
Qed.

Lemma double_tournament_value_iff_witness :
  fst (double_tournament 0%nat 2 0 1 false (sample_state [0; 1])) =
    Err ValueError.
Proof.
  destruct (double_tournament_value_iff (sample_state [0; 1]) 0%nat
              [0%nat; 1%nat] 2 0 1 false) as [_ Herr].
  - reflexivity.
  - discriminate.
  - repeat constructor; eexists; reflexivity.
  - repeat constructor; eexists; reflexivity.
  - lia.
  - apply Herr; lia.
Defined.
